(** * demskie/archive: compression walker and negotiating file server

    A shallow embedding of the package's [CompressFiles] walker and of its
    [fileHandler] (content-type resolution and [ServeHTTP]), followed by the
    properties of the specification that concern them.

    Conventions.  A Go [string] is a [string]; a [[]byte] is a [list byte];
    a Go [map[string]T] is a [gmap string T]; a Go [error] value is an
    [option error] ([None] is [nil]).  Library functions of the Go
    ecosystem that the package calls are modelled by their documented
    behaviour and are marked as such. *)

From Stdlib Require Import ZArith Ascii QArith.QArith_base.
From stdpp Require Import base strings gmap list.

Local Open Scope list_scope.

(** ** Strings and paths *)

Module Strings.

(** [strings.HasPrefix]. *)
Fixpoint HasPrefix (s prefix : string) : bool :=
  match prefix, s with
  | EmptyString, _ => true
  | String a p', String b s' => if decide (a = b) then HasPrefix s' p' else false
  | String _ _, EmptyString => false
  end.

Definition chars (s : string) : list ascii := Stdlib.Strings.String.list_ascii_of_string s.
Definition of_chars (l : list ascii) : string := Stdlib.Strings.String.string_of_list_ascii l.

Definition is_slash (c : ascii) : bool := bool_decide (c = "/"%char).
Definition is_dot (c : ascii) : bool := bool_decide (c = "."%char).

(** [strings.HasSuffix]. *)
Definition HasSuffix (s suffix : string) : bool :=
  bool_decide (rev (chars suffix) `prefix_of` rev (chars s)).

(** [s == ""] *)
Definition is_empty (s : string) : bool :=
  match s with EmptyString => true | String _ _ => false end.

End Strings.

Module Filepath.
Import Strings.

(** [filepath.Ext]: the loop runs from the last byte towards the first,
    stops at a separator, and returns [path[i:]] at the first dot.
    [ext_loop r acc] is the loop at index [i] with [r] the bytes
    [path[i], path[i-1], ...] and [acc] the bytes [path[i+1:]]. *)
Fixpoint ext_loop (r acc : list ascii) : list ascii :=
  match r with
  | [] => []
  | c :: r' =>
      if is_slash c then []
      else if is_dot c then c :: acc
      else ext_loop r' (c :: acc)
  end.

Definition Ext (path : string) : string :=
  of_chars (ext_loop (rev (chars path)) []).

(** Splitting at slashes, for [Clean] and [Base]. *)
Fixpoint split_slash (l : list ascii) (cur : list ascii) : list (list ascii) :=
  match l with
  | [] => [rev cur]
  | c :: l' =>
      if is_slash c then rev cur :: split_slash l' []
      else split_slash l' (c :: cur)
  end.

Definition dot : list ascii := ["."%char].
Definition dotdot : list ascii := ["."%char; "."%char].

(** One element of the path against the elements kept so far (most
    recent first). *)
Definition clean_step (rooted : bool) (stack : list (list ascii))
    (elem : list ascii) : list (list ascii) :=
  if decide (elem = []) then stack
  else if decide (elem = dot) then stack
  else if decide (elem = dotdot) then
    match stack with
    | top :: below =>
        if decide (top = dotdot) then elem :: stack else below
    | [] => if rooted then [] else [elem]
    end
  else elem :: stack.

Fixpoint join_slash (elems : list (list ascii)) : list ascii :=
  match elems with
  | [] => []
  | [e] => e
  | e :: rest => e ++ "/"%char :: join_slash rest
  end.

(** [path.Clean] / [filepath.Clean] (Unix), from the documented rules:
    collapse repeated slashes, drop [.] elements, resolve inner [..]
    elements, drop [..] at the root, and return [.] for the empty
    result. *)
Definition Clean (path : string) : string :=
  let l := chars path in
  let rooted := match l with c :: _ => is_slash c | [] => false end in
  let kept := rev (foldl (clean_step rooted) [] (split_slash l [])) in
  let body := join_slash kept in
  if rooted then of_chars ("/"%char :: body)
  else match body with [] => "." | _ => of_chars body end.

(** [filepath.Join] of a directory and an entry name. *)
Definition Join (dir name : string) : string := Clean (dir +:+ "/" +:+ name).

(** [filepath.Base]: the last element of the path. *)
Definition Base (path : string) : string :=
  match chars path with
  | [] => "."
  | _ =>
      match filter (λ e, bool_decide (e ≠ [])) (split_slash (chars path) []) with
      | [] => "/"
      | e :: es => of_chars (List.last es e)
      end
  end.

(** [filepath.FromSlash] on a system whose separator is the slash. *)
Definition FromSlash (path : string) : string := path.

End Filepath.

(** ** Errors, file information, results *)

(** The package-level error values, the errors of the operating system
    that the package passes on, and [filepath.SkipDir]. *)
Inductive error : Type :=
| ErrPathIsDirectory
| ErrPathIsNotDirectory
| ErrArchiverHasBeenDestroyed
| ErrNothingToArchive
| ErrContentTypeNotFound
| ErrNotExist
| ErrPermission
| ErrIsADirectory
| SkipDir.

Global Instance error_eq_dec : EqDecision error.
Proof. solve_decision. Defined.

(** [os.FileInfo], the fields the package reads. *)
Record FileInfo : Type := mkFileInfo {
  Name : string;
  Size : Z;
  ModTime : Z;
  IsDir : bool
}.

(** A call that either returns or panics (a nil dereference, a negative
    length given to [make]). *)
Inductive outcome (A : Type) : Type :=
| Returns (a : A)
| Panics.
Arguments Returns {A} a.
Arguments Panics {A}.

(** ** Package [header] (github.com/golang/gddo/httputil/header) *)

Module header.
(** [header.AcceptSpec]: one element of a parsed Accept* header.  [Q] is
    a [float64] in the library; the handler only tests its sign, and the
    model keeps it as a rational. *)
Record AcceptSpec : Type := mkSpec {
  Value : string;
  Q : QArith_base.Q
}.

(** [spec.Q > 0] *)
Definition isPositive (q : QArith_base.Q) : bool := (0 <? Qnum q)%Z.
End header.

(** ** Package [net/http], as far as the handler uses it *)

Module http.

(** [http.Header]: [Header.Set] replaces the values of a key by the
    single value given, whatever that value is; [Header.Get] returns the
    first value, or the empty string when the key is absent. *)
Abbreviation Header := (gmap string (list string)).

Definition HeaderSet (h : Header) (key value : string) : Header :=
  <[key := [value]]> h.

Definition HeaderGet (h : Header) (key : string) : string :=
  match h !! key with
  | Some (v :: _) => v
  | _ => ""
  end.

(** [http.File]: what [Stat] returns, a pair of a possibly nil
    [os.FileInfo] and an error, and the bytes [Read] delivers from the
    start of the file. *)
Record File : Type := mkFile {
  Stat : option FileInfo * option error;
  contents : list Byte.byte
}.

(** [file.Read(buf)] into a fresh buffer [make([]byte, size)]: the buffer
    keeps its zero bytes past the end of the file. *)
Definition ReadInto (file : File) (size : nat) : list Byte.byte :=
  let got := take size (contents file) in
  got ++ replicate (size - length got) Byte.x00.

(** [http.Dir]: the tree below the root, by the slash-separated name given
    to [Open].  A name that is not bound does not exist. *)
Abbreviation Dir := (gmap string File).

Definition Open (root : Dir) (name : string) : File + error :=
  match root !! name with
  | Some f => inl f
  | None => inr ErrNotExist
  end.

(** The request, as far as the handler reads it: [r.URL.Path] and the
    [Accept-Encoding] header as [header.ParseAccept] returns it. *)
Record Request : Type := mkRequest {
  URLPath : string;
  AcceptEncoding : list header.AcceptSpec
}.

(** What the handler hands to the response writer: either the header it
    has set and the arguments of [http.ServeContent], or
    [http.NotFound]. *)
Inductive Response : Type :=
| ServeContent (h : Header) (name : string) (modtime : Z) (content : File)
| NotFound.

End http.

(** ** The file handler: content types and negotiation *)

Module Handler.
Import Strings Filepath header http.

(** [encoders] and [extensions]: the catalog, best compression first. *)
Definition encoders : list string := ["br"; "gzip"; ""].
Definition extensions : list string := [".br"; ".gz"; ""].

(** [for i := range encoders] reads [encoders[i]] and [extensions[i]]. *)
Definition catalog : list (string * string) := zip encoders extensions.

(** One call of [tryServingContent]: it has served and returned nil, it
    has returned an error without touching the response, or it has
    panicked. *)
Inductive attempt : Type :=
| Serves (resp : Response) (cache : gmap string string)
| Misses (err : error)
| Crashes.

Section WithLibraries.
(** [mime.TypeByExtension], [filetype.MatchFile] (the MIME value of the
    match, empty when the type is unknown or the file cannot be read)
    and [http.DetectContentType]. *)
Variable TypeByExtension : string → string.
Variable MatchFile : string → string.
Variable DetectContentType : list Byte.byte → string.

(** The handler's root directory. *)
Variable rootDir : Dir.

Definition getCachedContentType (contentTypeCache : gmap string string)
    (p : string) : string * option error :=
  match contentTypeCache !! p with
  | Some val => (val, None)
  | None => ("", Some ErrContentTypeNotFound)
  end.

Definition cacheContentType (contentTypeCache : gmap string string)
    (p contentType : string) : gmap string string :=
  <[p := contentType]> contentTypeCache.

(** The length of the sniffing buffer, as the code computes it:
    [if err != nil && fileInfo.Size() < 512].  With a nil [fileInfo]
    the call of [Size] is a nil dereference. *)
Definition sniffSize (st : option FileInfo * option error) : outcome Z :=
  match st with
  | (fileInfo, Some _) =>
      match fileInfo with
      | None => Panics
      | Some fi => if (Size fi <? 512)%Z then Returns (Size fi) else Returns 512%Z
      end
  | (_, None) => Returns 512%Z
  end.

Definition determineContentType (contentTypeCache : gmap string string)
    (p : string) (file : File) : outcome (string * gmap string string) :=
  let '(contentType, _) := getCachedContentType contentTypeCache p in
  if negb (is_empty contentType) then Returns (contentType, contentTypeCache)
  else
    let contentType := TypeByExtension (Ext p) in
    if negb (is_empty contentType)
    then Returns (contentType, cacheContentType contentTypeCache p contentType)
    else
      let typeMatch := MatchFile p in
      if negb (is_empty typeMatch)
      then Returns (typeMatch, cacheContentType contentTypeCache p typeMatch)
      else
        match sniffSize (Stat file) with
        | Panics => Panics
        | Returns size =>
            if (size <? 0)%Z then Panics
            else
              let bytes := ReadInto file (Z.to_nat size) in
              let contentType := DetectContentType bytes in
              Returns (contentType,
                       cacheContentType contentTypeCache p contentType)
        end.

(** The logical path of a request: leading slash, [path.Clean], and
    [/index.html] for the root. *)
Definition originalPath (urlPath : string) : string :=
  let p := if HasPrefix urlPath "/" then urlPath else "/" +:+ urlPath in
  let p := Clean p in
  if decide (p = "/") then "/index.html" else p.

(** The closure [tryServingContent] of [ServeHTTP].  The response
    writer arrives with an empty header. *)
Definition tryServingContent (r : Request)
    (contentTypeCache : gmap string string) (enc ext : string) : attempt :=
  let p := FromSlash (originalPath (URLPath r) +:+ ext) in
  match Open rootDir p with
  | inr err => Misses err
  | inl file =>
      match Stat file with
      | (_, Some err) => Misses err
      | (None, None) => Crashes
      | (Some fileInfo, None) =>
          if IsDir fileInfo then Misses ErrPathIsDirectory
          else
            let h := HeaderSet ∅ "Content-Encoding" enc in
            match determineContentType contentTypeCache
                    (originalPath (URLPath r)) file with
            | Panics => Crashes
            | Returns (contentType, cache') =>
                let h := HeaderSet h "Content-Type" contentType in
                Serves (ServeContent h (URLPath r) (ModTime fileInfo) file)
                       cache'
            end
      end
  end.

(** [spec.Value == encoders[i] && spec.Q > 0 || extensions[i] == ""] *)
Definition eligible (spec : AcceptSpec) (enc ext : string) : bool :=
  bool_decide (Value spec = enc) && isPositive (Q spec) || is_empty ext.

(** The inner loop [for _, spec := range specs]; [None] when it ends
    without a return. *)
Fixpoint rangeSpecs (try : string → string → attempt) (enc ext : string)
    (specs : list AcceptSpec) : option (outcome (Response * gmap string string)) :=
  match specs with
  | [] => None
  | spec :: rest =>
      if eligible spec enc ext then
        match try enc ext with
        | Serves resp cache' => Some (Returns (resp, cache'))
        | Crashes => Some Panics
        | Misses _ => rangeSpecs try enc ext rest
        end
      else rangeSpecs try enc ext rest
  end.

(** The outer loop [for i := range encoders], then [http.NotFound]. *)
Fixpoint rangeEncoders (try : string → string → attempt)
    (specs : list AcceptSpec) (cache : gmap string string)
    (entries : list (string * string))
    : outcome (Response * gmap string string) :=
  match entries with
  | [] => Returns (NotFound, cache)
  | (enc, ext) :: later =>
      let inner :=
        match rangeSpecs try enc ext specs with
        | Some done => done
        | None => rangeEncoders try specs cache later
        end in
      if decide (length specs = 0) then
        match try enc ext with
        | Serves resp cache' => Returns (resp, cache')
        | Crashes => Panics
        | Misses _ => inner
        end
      else inner
  end.

Definition ServeHTTP (contentTypeCache : gmap string string) (r : Request)
    : outcome (Response * gmap string string) :=
  let specs := AcceptEncoding r in
  rangeEncoders (tryServingContent r contentTypeCache) specs
    contentTypeCache catalog.

(** *** Vocabulary for the properties of the handler *)

(** The artifact of a request for one catalog suffix is a regular file
    that can be opened and examined. *)
Definition regularAt (urlPath ext : string) (file : File) (fileInfo : FileInfo) : Prop :=
  rootDir !! (originalPath urlPath +:+ ext) = Some file ∧
  Stat file = (Some fileInfo, None) ∧
  IsDir fileInfo = false.

(** The header of a successful serve. *)
Definition servedHeader (enc contentType : string) : Header :=
  HeaderSet (HeaderSet ∅ "Content-Encoding" enc) "Content-Type" contentType.

(** The client's preferences let the handler try this catalog entry. *)
Definition accepted (specs : list AcceptSpec) (enc ext : string) : bool :=
  bool_decide (length specs = 0) || existsb (λ spec, eligible spec enc ext) specs.

(** The encoding a response was served with: what a client reads from its
    [Content-Encoding] header. *)
Definition servedEncoding (resp : Response) : option string :=
  match resp with
  | ServeContent h _ _ _ => Some (HeaderGet h "Content-Encoding")
  | NotFound => None
  end.

End WithLibraries.
End Handler.

(** ** Package [os] and [filepath.Walk], as far as the walker uses them *)

Module os.
Import Filepath.

(** What a path names: a regular file with its bytes, or a directory.
    The flag is the permission to open it. *)
Inductive node : Type :=
| RegularFile (data : list Byte.byte) (access : bool)
| Directory (access : bool).

(** The file system: the node stored under each path.  Paths are the
    strings the program passes; [filepath.Join] produces them cleaned. *)
Abbreviation FS := (gmap string node).

(** [os.Stat] and [os.Lstat] (there are no symbolic links in the model).
    Modification times are not tracked. *)
Definition Lstat (fs : FS) (path : string) : FileInfo + error :=
  match fs !! path with
  | Some (RegularFile data _) =>
      inl (mkFileInfo (Base path) (Z.of_nat (length data)) 0 false)
  | Some (Directory _) => inl (mkFileInfo (Base path) 0 0 true)
  | None => inr ErrNotExist
  end.

(** [os.Open]: the bytes a reader of the handle gets.  Reading a
    directory handle yields no bytes. *)
Definition Open (fs : FS) (path : string) : list Byte.byte + error :=
  match fs !! path with
  | Some (RegularFile data true) => inl data
  | Some (Directory true) => inl []
  | Some _ => inr ErrPermission
  | None => inr ErrNotExist
  end.

(** [os.Create]: creates the file, or truncates it when it exists. *)
Definition Create (fs : FS) (path : string) : FS + error :=
  match fs !! path with
  | Some (Directory _) => inr ErrIsADirectory
  | Some (RegularFile _ false) => inr ErrPermission
  | Some (RegularFile _ true) | None => inl (<[path := RegularFile [] true]> fs)
  end.

(** Everything written to a handle that [Create] returned, once the
    writer in front of it is closed. *)
Definition WriteAll (fs : FS) (path : string) (bytes : list Byte.byte) : FS :=
  <[path := RegularFile bytes true]> fs.

End os.

Module Walk.
Import Filepath os.

(** The names [readDirNames] returns for a directory, and below each
    name the same for that entry if it is a directory. *)
#[local] Set Warnings "-register-all".
Inductive listing : Type :=
| Listing (name : string) (entries : list listing).

Definition entryName (l : listing) : string :=
  match l with Listing name _ => name end.

(** [interleave keep extra xs ys]: the list [ys] is [xs], entry by entry up
    to [keep], with further entries that satisfy [extra] in between. *)
Inductive interleave {A : Type} (keep : A → A → Prop) (extra : A → Prop)
    : list A → list A → Prop :=
| interleave_nil : interleave keep extra [] []
| interleave_keep x y xs ys :
    keep x y → interleave keep extra xs ys →
    interleave keep extra (x :: xs) (y :: ys)
| interleave_extra y xs ys :
    extra y → interleave keep extra xs ys →
    interleave keep extra xs (y :: ys).

(** [grown fresh path l l2]: reading the directories below [path] yields
    [l2] where it yielded [l] before, the difference being names of paths
    that are [fresh]. *)
Inductive grown (fresh : string → Prop) : string → listing → listing → Prop :=
| grown_listing path name name2 entries entries2 :
    interleave
      (λ e e2, entryName e = entryName e2 ∧
               grown fresh (Join path (entryName e)) e e2)
      (λ x, fresh (Join path (entryName x)))
      entries entries2 →
    grown fresh path (Listing name entries) (Listing name2 entries2).
#[local] Set Warnings "register-all".

(** What [filepath.Walk] hands to its callback: the [FileInfo] with a nil
    error, or an error (with the [FileInfo] when the entry itself could be
    examined and only reading the directory failed). *)
Inductive visit : Type :=
| Info (fileInfo : FileInfo)
| Failed (fileInfo : option FileInfo) (err : error).

Section Walk.
Context {S : Type}.
Variable fsOf : S → FS.
Variable walkFn : string → visit → S → S * option error.

(** [readDirNames]: fails on a directory that cannot be opened. *)
Definition readDirNames (fs : FS) (path : string) (l : listing)
    : list listing + error :=
  match fs !! path with
  | Some (Directory true) => inl (match l with Listing _ es => es end)
  | Some (Directory false) => inr ErrPermission
  | Some (RegularFile _ _) => inr ErrPermission
  | None => inr ErrNotExist
  end.

(** The loop [for _, name := range names] of [walk], over the entries
    still to visit; [rec] is [walk] itself. *)
Definition walkNames (rec : string → FileInfo → listing → S → S * option error)
    (path : string) : list listing → S → S * option error :=
  fix names (es : list listing) (s : S) : S * option error :=
    match es with
    | [] => (s, None)
    | e :: es' =>
        let filename := Join path (entryName e) in
        match Lstat (fsOf s) filename with
        | inr err =>
            match walkFn filename (Failed None err) s with
            | (s', Some err') =>
                if decide (err' = SkipDir) then names es' s'
                else (s', Some err')
            | (s', None) => names es' s'
            end
        | inl fileInfo =>
            match rec filename fileInfo e s with
            | (s', Some err') =>
                if negb (IsDir fileInfo) || bool_decide (err' ≠ SkipDir)
                then (s', Some err')
                else names es' s'
            | (s', None) => names es' s'
            end
        end
    end.

(** [walk] of path/filepath: the callback's own result decides whether
    the walk goes on. *)
Fixpoint walk (path : string) (info : FileInfo) (l : listing) (s : S)
    {struct l} : S * option error :=
  if negb (IsDir info) then walkFn path (Info info) s
  else
    match l with
    | Listing _ entries =>
        match readDirNames (fsOf s) path l with
        | inr err => walkFn path (Failed (Some info) err) s
        | inl _ =>
            match walkFn path (Info info) s with
            | (s1, Some err1) => (s1, Some err1)
            | (s1, None) => walkNames walk path entries s1
            end
        end
    end.

(** [filepath.Walk]. *)
Definition Walk (root : string) (l : listing) (s : S) : S * option error :=
  let '(s', err) :=
    match Lstat (fsOf s) root with
    | inr err => walkFn root (Failed None err) s
    | inl info => walk root info l s
    end in
  if decide (err = Some SkipDir) then (s', None) else (s', err).

(** *** Vocabulary for the properties of a walk *)

(** The callback is handed the [FileInfo] that [Lstat] has just returned
    for the path. *)
Definition handed (s : S) (p : string) (v : visit) : Prop :=
  match v with
  | Info fileInfo => Lstat (fsOf s) p = inl fileInfo
  | Failed _ _ => True
  end.

(** [run s s' err]: the callback has been called some number of times,
    taking [s] to [s']; every call but the last returned nil or a
    [SkipDir] that the walk absorbed, and [err] is what the walk returns. *)
Inductive run : S → S → option error → Prop :=
| run_done s : run s s None
| run_step s p v s1 s' err :
    handed s p v → walkFn p v s = (s1, None) → run s1 s' err → run s s' err
| run_skip s p v s1 s' err :
    handed s p v → walkFn p v s = (s1, Some SkipDir) → run s1 s' err →
    run s s' err
| run_stop s p v s1 err :
    handed s p v → walkFn p v s = (s1, Some err) → run s s1 (Some err).

Definition runs (rec : string → FileInfo → listing → S → S * option error)
    (e : listing) : Prop :=
  ∀ p info s s' err,
    Lstat (fsOf s) p = inl info → rec p info e s = (s', err) → run s s' err.

End Walk.
End Walk.

(** ** The compression walker *)

Module Compress.
Import Strings Filepath os Walk.

(** What the walk carries along: the file system and the variable
    [matches] of [CompressFiles]. *)
Record state : Type := mkState {
  fs : FS;
  matches : list string
}.

Section WithCodecs.
(** The bytes a [gzip.Writer] at [gzip.BestCompression] and a
    [BrotliWriter] with nil parameters have written to their output once
    closed, for the bytes copied into them. *)
Variable gzipBest : list Byte.byte → list Byte.byte.
Variable brotliDefault : list Byte.byte → list Byte.byte.

(** The compiled pattern, by its [FindString]. *)
Variable rgx : string → string.

(** The function literal handed to [filepath.Walk]. *)
Definition walkFn (p : string) (v : visit) (s : state) : state * option error :=
  match v with
  | Failed _ _ => (s, None)
  | Info fileInfo =>
      if negb (IsDir fileInfo) && negb (is_empty (rgx (Name fileInfo))) then
        match Open (fs s) p with
        | inr err => (s, Some err)
        | inl inputFile =>
            let matches' := matches s ++ [p] in
            if negb (bool_decide (Ext p = ".gz")) && negb (bool_decide (Ext p = ".br"))
            then
              match Create (fs s) (p +:+ ".gz") with
              | inr err => (mkState (fs s) matches', Some err)
              | inl fs1 =>
                  let fs2 := WriteAll fs1 (p +:+ ".gz") (gzipBest inputFile) in
                  match Create fs2 (p +:+ ".br") with
                  | inr err => (mkState fs2 matches', Some err)
                  | inl fs3 =>
                      let fs4 := WriteAll fs3 (p +:+ ".br") (brotliDefault inputFile) in
                      (mkState fs4 matches', None)
                  end
              end
            else (mkState (fs s) matches', None)
        end
      else (s, None)
  end.

(** [CompressFiles]; [tree] is what reading the directories below [dir]
    yields.  A nil slice is the empty list. *)
Definition CompressFiles (disk : FS) (tree : listing) (dir : string)
    : FS * list string * option error :=
  match Lstat disk (Clean dir) with
  | inr err => (disk, [], Some err)
  | inl fileInfo =>
      if negb (IsDir fileInfo) then (disk, [], Some ErrPathIsNotDirectory)
      else
        let '(s, err) := Walk fs walkFn dir tree (mkState disk []) in
        (fs s, matches s, err)
  end.

(** *** Vocabulary for the properties of the walker *)

(** [Create] succeeds on a path that is free or names a file that may be
    opened. *)
Definition writable (disk : FS) (path : string) : Prop :=
  disk !! path = None ∨ ∃ data, disk !! path = Some (RegularFile data true).

(** A file the walk compresses: a isRegular file that can be opened, whose
    name the pattern matches. *)
Definition source (disk : FS) (p : string) (data : list Byte.byte) : Prop :=
  disk !! p = Some (RegularFile data true) ∧ is_empty (rgx (Base p)) = false.

(** The path does not itself carry an artifact suffix. *)
Definition plain (p : string) : Prop := Ext p ≠ ".gz" ∧ Ext p ≠ ".br".

(** What one call of the walkFn does, case by case. *)
Inductive visited (s : state) (p : string) : state → option error → Prop :=
| visit_ignored : visited s p s None
| visit_unopened data :
    fs s !! p = Some (RegularFile data false) →
    is_empty (rgx (Base p)) = false →
    visited s p s (Some ErrPermission)
| visit_kept data :
    source (fs s) p data → ¬ plain p →
    visited s p (mkState (fs s) (matches s ++ [p])) None
| visit_gz_failed data err :
    source (fs s) p data → plain p →
    Create (fs s) (p +:+ ".gz") = inr err →
    visited s p (mkState (fs s) (matches s ++ [p])) (Some err)
| visit_br_failed data err :
    source (fs s) p data → plain p →
    writable (fs s) (p +:+ ".gz") →
    Create (WriteAll (fs s) (p +:+ ".gz") (gzipBest data)) (p +:+ ".br") = inr err →
    visited s p
      (mkState (WriteAll (fs s) (p +:+ ".gz") (gzipBest data)) (matches s ++ [p]))
      (Some err)
| visit_compressed data :
    source (fs s) p data → plain p →
    writable (fs s) (p +:+ ".gz") → writable (fs s) (p +:+ ".br") →
    visited s p
      (mkState (WriteAll (WriteAll (fs s) (p +:+ ".gz") (gzipBest data))
                  (p +:+ ".br") (brotliDefault data))
               (matches s ++ [p]))
      None.

(** Paths without an artifact suffix keep their node. *)
Definition framed (s s' : state) : Prop :=
  ∀ q, plain q → fs s' !! q = fs s !! q.

(** Every path whose node has changed is an artifact path of a file that
    the run has added to [matches]. *)
Definition accounted (s s' : state) : Prop :=
  ∃ added, matches s' = matches s ++ added ∧
    ∀ q, fs s' !! q = fs s !! q ∨
         ∃ p, p ∈ added ∧ plain p ∧ (q = p +:+ ".gz" ∨ q = p +:+ ".br").

(** Directories and files that may not be opened stay as they are: the
    walk writes only where [Create] succeeds. *)
Definition locked (n : node) : Prop :=
  match n with
  | Directory _ => True
  | RegularFile _ access => access = false
  end.

Definition held (s s' : state) : Prop :=
  ∀ q n, locked n → fs s' !! q = Some n ↔ fs s !! q = Some n.

(** Every plain file in [matches] is a isRegular file whose two siblings
    hold its compressed bytes. *)
Definition compressed (s : state) : Prop :=
  ∀ p, p ∈ matches s → plain p →
    ∃ data,
      fs s !! p = Some (RegularFile data true) ∧
      fs s !! (p +:+ ".gz") = Some (RegularFile (gzipBest data) true) ∧
      fs s !! (p +:+ ".br") = Some (RegularFile (brotliDefault data) true).

(** Nodes are never removed. *)
Definition persisted (s s' : state) : Prop :=
  ∀ q, is_Some (fs s !! q) → is_Some (fs s' !! q).

(** A path is settled on a disk when visiting it changes nothing: if it is
    a file that the pattern matches, it can be opened, and if it is plain
    its siblings already hold its compressed bytes. *)
Definition settled (disk : FS) (p : string) : Prop :=
  ∀ data access,
    disk !! p = Some (RegularFile data access) →
    is_empty (rgx (Base p)) = false →
    access = true ∧
    (plain p →
     disk !! (p +:+ ".gz") = Some (RegularFile (gzipBest data) true) ∧
     disk !! (p +:+ ".br") = Some (RegularFile (brotliDefault data) true)).

Global Instance plain_dec p : Decision (plain p).
Proof. unfold plain. apply _. Defined.

(** A path that is free, or names an artifact that the walk has written,
    is settled. *)
Definition harmless (disk : FS) (q : string) : Prop :=
  disk !! q = None ∨ ∃ data, disk !! q = Some (RegularFile data true) ∧ ¬ plain q.

(** [reruns l]: where a walk over [l] has gone through and the disk has
    since become [final], a walk over a grown listing changes nothing. *)
Definition reruns (l : listing) : Prop :=
  ∀ path info s s1 final t info2 l2,
    grown (harmless (fs final)) path l l2 →
    walk fs walkFn path info l s = (s1, None) →
    Lstat (fs s) path = inl info →
    run fs walkFn s1 final None → compressed final →
    fs t = fs final → Lstat (fs t) path = inl info2 →
    ∃ ms, walk fs walkFn path info2 l2 t = (mkState (fs t) ms, None).

(** [reached disk path l q]: walking [l] at [path] visits [q], going
    down through directories that can be read. *)
Inductive reached (disk : FS) : string → listing → string → Prop :=
| reached_here path l : reached disk path l path
| reached_below path name entries e q :
    disk !! path = Some (Directory true) → e ∈ entries →
    reached disk (Join path (entryName e)) e q →
    reached disk path (Listing name entries) q.

Definition isRegular (disk : FS) (q : string) : Prop :=
  ∃ data access, disk !! q = Some (RegularFile data access).

(** [covers l]: a walk over [l] that succeeds has put every isRegular file
    it reaches and the pattern matches into [matches]. *)
Definition covers (l : listing) : Prop :=
  ∀ path info s s' q,
    walk fs walkFn path info l s = (s', None) →
    Lstat (fs s) path = inl info →
    reached (fs s) path l q → isRegular (fs s) q →
    is_empty (rgx (Base q)) = false →
    q ∈ matches s'.

(** The pattern of [CompressWebserverFiles], the alternation of the
    suffixes each followed by [$], by its [FindString]: the suffix the name
    ends with (no suffix of the list ends another), or the empty string. *)
Definition webserverSuffixes : list string :=
  ["js"; "css"; "html"; "json"; "svg"; "ico"; "eot"; "otf"; "ttf"; "woff"].

Definition webserverPattern (name : string) : string :=
  match filter (λ suffix, HasSuffix name suffix = true) webserverSuffixes with
  | suffix :: _ => suffix
  | [] => ""
  end.

End WithCodecs.

Definition CompressWebserverFiles
    (gzipBest brotliDefault : list Byte.byte → list Byte.byte)
    (disk : FS) (tree : listing) (dir : string)
    : FS * list string * option error :=
  CompressFiles gzipBest brotliDefault webserverPattern disk tree dir.

End Compress.

(** ** The earlier revision

    Before the content-type cache was added, the package had a handler
    without the fallback for an empty preference list and a walker that
    looked for the siblings before creating them.  Both are kept here for
    comparison with the current code above. *)

Module Earlier.
Import Strings Filepath header http os Walk.

(** One turn of the inner loop of the earlier [ServeHTTP]: open
    [r.URL.Path + ext[i]], examine it, serve it. *)
Inductive turn : Type :=
| Served (resp : Response)
| Continue
| Crashed.

Definition tryEntry (root : Dir) (r : Request) (enc ext : string) : turn :=
  match http.Open root (URLPath r +:+ ext) with
  | inr _ => Continue
  | inl file =>
      match Stat file with
      | (_, Some _) => Continue
      | (None, None) => Crashed
      | (Some fileInfo, None) =>
          if IsDir fileInfo then Continue
          else Served (ServeContent (HeaderSet ∅ "Content-Encoding" enc)
                         (URLPath r +:+ ext) (ModTime fileInfo) file)
      end
  end.

Fixpoint rangeSpecs (root : Dir) (r : Request) (enc ext : string)
    (specs : list AcceptSpec) : turn :=
  match specs with
  | [] => Continue
  | spec :: rest =>
      if Handler.eligible spec enc ext then
        match tryEntry root r enc ext with
        | Continue => rangeSpecs root r enc ext rest
        | done => done
        end
      else rangeSpecs root r enc ext rest
  end.

Fixpoint rangeEncoders (root : Dir) (r : Request)
    (entries : list (string * string)) : outcome Response :=
  match entries with
  | [] => Returns NotFound
  | (enc, ext) :: later =>
      match rangeSpecs root r enc ext (AcceptEncoding r) with
      | Served resp => Returns resp
      | Crashed => Panics
      | Continue => rangeEncoders root r later
      end
  end.

Definition ServeHTTP (root : Dir) (r : Request) : outcome Response :=
  rangeEncoders root r Handler.catalog.

Section WithCodecs.
(** The gzip stream at best compression, and the brotli stream for the
    mode chosen from the file's name. *)
Variable gzipBest : list Byte.byte → list Byte.byte.
Variable brotliFor : string → list Byte.byte → list Byte.byte.
Variable rgx : string → string.

(** The brotli half of the walk function: the sibling is created when
    [Stat] finds it ([err == nil]) as well as when it does not exist. *)
Definition brotliHalf (p name : string) (inputFile : list Byte.byte)
    (disk : FS) (ms : list string) : Compress.state * option error :=
  if negb (HasSuffix p ".br") then
    match Create disk (p +:+ ".br") with
    | inr err => (Compress.mkState disk ms, Some err)
    | inl disk1 =>
        (Compress.mkState (WriteAll disk1 (p +:+ ".br") (brotliFor name inputFile)) ms,
         None)
    end
  else (Compress.mkState disk ms, None).

(** The walk function of the earlier [CompressFiles].  After the gzip
    sibling has been written the test [err != nil || err != io.EOF] holds
    for the nil error of [io.Copy], and the function returns. *)
Definition walkFn (p : string) (v : visit) (s : Compress.state)
    : Compress.state * option error :=
  match v with
  | Failed _ _ => (s, None)
  | Info fileInfo =>
      if negb (IsDir fileInfo) && negb (is_empty (rgx (Name fileInfo))) then
        match os.Open (Compress.fs s) p with
        | inr err => (s, Some err)
        | inl inputFile =>
            let ms := Compress.matches s ++ [p] in
            let disk := Compress.fs s in
            if negb (HasSuffix p ".gz") then
              match Lstat disk (p +:+ ".gz") with
              | inr _ =>
                  match Create disk (p +:+ ".gz") with
                  | inr err => (Compress.mkState disk ms, Some err)
                  | inl disk1 =>
                      (Compress.mkState
                         (WriteAll disk1 (p +:+ ".gz") (gzipBest inputFile)) ms,
                       None)
                  end
              | inl _ => brotliHalf p (Name fileInfo) inputFile disk ms
              end
            else brotliHalf p (Name fileInfo) inputFile disk ms
        end
      else (s, None)
  end.

End WithCodecs.
End Earlier.

(** ** Concrete worlds used by the examples below *)

Module World.
Import Strings Filepath header http.
Import Handler (servedHeader).

Definition bytes (s : string) : list Byte.byte :=
  Stdlib.Strings.String.list_byte_of_string s.

(** A small extension table, a magic-number matcher that knows nothing,
    and a sniffer that tells text from binary by a zero byte. *)
Definition typeByExtension (ext : string) : string :=
  if decide (ext = ".html") then "text/html; charset=utf-8"
  else if decide (ext = ".js") then "text/javascript; charset=utf-8"
  else if decide (ext = ".css") then "text/css; charset=utf-8"
  else "".

Definition matchFile (p : string) : string := "".

Definition detectContentType (data : list Byte.byte) : string :=
  if existsb (Byte.eqb Byte.x00) data then "application/octet-stream"
  else "text/plain; charset=utf-8".

Definition regular (data : string) (mtime : Z) (name : string) : File :=
  mkFile (Some (mkFileInfo name (Z.of_nat (length (bytes data))) mtime false), None)
         (bytes data).

Definition directory (name : string) : File :=
  mkFile (Some (mkFileInfo name 0 0 true), None) [].

(** A handle whose [Stat] fails the way [os.File.Stat] does: nil
    [FileInfo], non-nil error. *)
Definition unstattable (data : string) : File :=
  mkFile (None, Some ErrPermission) (bytes data).

(** A served tree: the page with both artifacts, a script with only the
    gzip artifact, and a note with none. *)
Definition site : Dir :=
  <["/index.html" := regular "<html>home</html>" 10 "index.html"]>
  (<["/index.html.br" := regular "BR(home)" 11 "index.html.br"]>
  (<["/index.html.gz" := regular "GZ(home)" 12 "index.html.gz"]>
  (<["/app.js" := regular "let x" 20 "app.js"]>
  (<["/app.js.gz" := regular "GZ(let x)" 21 "app.js.gz"]>
  (<["/notes" := regular "plain words" 30 "notes"]>
  (<["/img" := directory "img"]> ∅)))))).

Definition q (num : Z) (den : positive) : QArith_base.Q := Qmake num den.

(** Stand-ins for the two codecs: a marker in front of the bytes, removed
    again when decompressing. *)
Definition gz (data : list Byte.byte) : list Byte.byte :=
  Byte.x1f :: Byte.x8b :: data.

Definition br (data : list Byte.byte) : list Byte.byte :=
  Byte.xce :: data.

Definition gunzip (stream : list Byte.byte) : option (list Byte.byte) :=
  match stream with
  | Byte.x1f :: Byte.x8b :: data => Some data
  | _ => None
  end.

Definition unbrotli (stream : list Byte.byte) : option (list Byte.byte) :=
  match stream with
  | Byte.xce :: data => Some data
  | _ => None
  end.

(** A pattern that matches every name (the whole name is the match). *)
Definition anyName (name : string) : string := name.

(** A build directory: a script with a stale gzip sibling from an earlier
    run, a style sheet one level down, and a directory that cannot be read.
    The listing also names [gone.js], which no longer exists. *)
Definition buildDisk : os.FS :=
  <["build" := os.Directory true]>
  (<["build/app.js" := os.RegularFile (bytes "console.log(1)") true]>
  (<["build/app.js.gz" := os.RegularFile (bytes "stale") true]>
  (<["build/css" := os.Directory true]>
  (<["build/css/site.css" := os.RegularFile (bytes "body{}") true]>
  (<["build/private" := os.Directory false]>
  (<["build/private/secret.js" := os.RegularFile (bytes "let k") true]> ∅)))))).

Definition buildTree : Walk.listing :=
  Walk.Listing "build"
    [Walk.Listing "app.js" [];
     Walk.Listing "app.js.gz" [];
     Walk.Listing "css" [Walk.Listing "site.css" []];
     Walk.Listing "gone.js" [];
     Walk.Listing "private" [Walk.Listing "secret.js" []]].

(** The disk the walk leaves, and what its directories list afterwards. *)
Definition builtDisk : os.FS :=
  (Compress.CompressWebserverFiles gz br buildDisk buildTree "build").1.1.

Definition builtTree : Walk.listing :=
  Walk.Listing "build"
    [Walk.Listing "app.js" [];
     Walk.Listing "app.js.br" [];
     Walk.Listing "app.js.gz" [];
     Walk.Listing "css"
       [Walk.Listing "site.css" [];
        Walk.Listing "site.css.br" [];
        Walk.Listing "site.css.gz" []];
     Walk.Listing "gone.js" [];
     Walk.Listing "private" [Walk.Listing "secret.js" []]].

(** The same build directory with a script that may not be opened. *)
Definition lockedDisk : os.FS :=
  <["build/app.js" := os.RegularFile (bytes "console.log(1)") false]> buildDisk.

(** A directory that holds a text and an archive of the same name, and a
    directory with nothing but an archive. *)
Definition distDisk : os.FS :=
  <["dist" := os.Directory true]>
  (<["dist/a.txt" := os.RegularFile (bytes "text") true]>
  (<["dist/a.txt.gz" := os.RegularFile (bytes "ARCHIVE") true]> ∅)).

Definition distTree : Walk.listing :=
  Walk.Listing "dist" [Walk.Listing "a.txt" []; Walk.Listing "a.txt.gz" []].

Definition pkgDisk : os.FS :=
  <["pkg" := os.Directory true]>
  (<["pkg/data.gz" := os.RegularFile (bytes "DATA") true]> ∅).

Definition pkgTree : Walk.listing :=
  Walk.Listing "pkg" [Walk.Listing "data.gz" []].

(** A script whose two siblings are both left over from an earlier run. *)
Definition staleDisk : os.FS :=
  <["build/app.js.br" := os.RegularFile (bytes "stale too") true]> buildDisk.

Definition brFor (name : string) (data : list Byte.byte) : list Byte.byte :=
  br data.

(** The note has no extension the table knows and no magic number: its type
    is sniffed from a 512-byte buffer, and it is served as the identity
    variant with [Content-Encoding] present and empty. *)
Definition notesHeader : Header := servedHeader "" "application/octet-stream".

Definition notesCache : gmap string string :=
  <["/notes" := "application/octet-stream"]> ∅.

Definition builtMatches : list string := ["build/app.js"; "build/css/site.css"].

End World.
(** ** Vocabulary for further properties of the handler *)

Module HandlerMore.
Import Strings Filepath header http Handler.

(** Every handle below the root answers [Stat] with a [FileInfo] or with
    an error, as an [os.File] does. *)
Definition answering (root : Dir) : Prop :=
  ∀ name file, root !! name = Some file → Stat file ≠ (None, None).

(** No strategy before the sniffing resolves the path: the cache has no
    type for it (or an empty one), the extension is unknown, and so are the
    magic bytes. *)
Definition unresolved (TypeByExtension MatchFile : string → string)
    (cache : gmap string string) (p : string) : Prop :=
  (cache !! p = None ∨ cache !! p = Some "") ∧
  TypeByExtension (Ext p) = "" ∧
  MatchFile p = "".

End HandlerMore.

(** ** Vocabulary for further properties of the walker *)

Module CompressMore.
Import Strings Filepath os Walk Compress.

(** The path names a regular file that may be opened. *)
Definition openable (disk : FS) (p : string) : Prop :=
  ∃ data, disk !! p = Some (RegularFile data true).

(** Every path in [matches] names a regular file that may be opened and
    whose name the pattern matches. *)
Definition listed (rgx : string → string) (s : state) : Prop :=
  ∀ p, p ∈ matches s → openable (fs s) p ∧ is_empty (rgx (Base p)) = false.

(** The file at [p] holds [data] and has both siblings, which hold the
    compressions of [data]. *)
Definition paired (gzipBest brotliDefault : list Byte.byte → list Byte.byte)
    (disk : FS) (p : string) (data : list Byte.byte) : Prop :=
  disk !! p = Some (RegularFile data true) ∧
  disk !! (p +:+ ".gz") = Some (RegularFile (gzipBest data) true) ∧
  disk !! (p +:+ ".br") = Some (RegularFile (brotliDefault data) true).

End CompressMore.

(** ** The earlier walker in its frame *)

Module EarlierMore.
Import Strings Filepath os Walk.

(** The earlier [CompressFiles]: the same frame around the earlier walk
    function. *)
Definition CompressFiles
    (gzipBest : list Byte.byte → list Byte.byte)
    (brotliFor : string → list Byte.byte → list Byte.byte)
    (rgx : string → string)
    (disk : FS) (tree : listing) (dir : string)
    : FS * list string * option error :=
  match Lstat disk (Clean dir) with
  | inr err => (disk, [], Some err)
  | inl fileInfo =>
      if negb (IsDir fileInfo) then (disk, [], Some ErrPathIsNotDirectory)
      else
        let '(s, err) :=
          Walk Compress.fs (Earlier.walkFn gzipBest brotliFor rgx) dir tree
            (Compress.mkState disk []) in
        (Compress.fs s, Compress.matches s, err)
  end.

(** The path occurs at least twice in the list. *)
Definition repeated (p : string) (l : list string) : Prop :=
  ∃ l1 l2 l3, l = l1 ++ p :: l2 ++ p :: l3.

(** What a run of the earlier walk function has done between two states:
    it has removed nothing, it has added [added] to the matches, and every
    path whose node has changed is the gzip sibling of an added file, absent
    before, or the brotli sibling of an added file whose gzip sibling was
    there before (or which is itself a [.gz] file, or which was visited
    twice). *)
Definition sequenced (s s' : Compress.state) : Prop :=
  (∀ q, is_Some (Compress.fs s !! q) → is_Some (Compress.fs s' !! q)) ∧
  ∃ added,
    Compress.matches s' = Compress.matches s ++ added ∧
    ∀ q, Compress.fs s' !! q = Compress.fs s !! q ∨
         ∃ p, p ∈ added ∧
           ((q = p +:+ ".gz" ∧ Compress.fs s !! q = None) ∨
            (q = p +:+ ".br" ∧
             (Strings.HasSuffix p ".gz" = true ∨
              is_Some (Compress.fs s !! (p +:+ ".gz")) ∨
              repeated p added))).

End EarlierMore.

(** ** Cleaned paths *)

Module PathVocabulary.
Import Strings Filepath.

(** An element of a cleaned path: not empty, not [.] or [..], without a
    slash. *)
Definition proper (e : list ascii) : Prop :=
  e ≠ [] ∧ e ≠ dot ∧ e ≠ dotdot ∧ "/"%char ∉ e.

(** A rooted path of at least one proper element. *)
Definition canonical (p : string) : Prop :=
  ∃ elems, elems ≠ [] ∧ Forall proper elems ∧
           chars p = "/"%char :: join_slash elems.

End PathVocabulary.

(** ** The handler over a sequence of requests *)

Module Server.
Import Strings Filepath header http Handler.

(** [fileHandler], without its lock. *)
Record fileHandler : Type := mkHandler {
  rootDir : Dir;
  contentTypeCache : gmap string string
}.

Section WithLibraries.
Variable TypeByExtension : string → string.
Variable MatchFile : string → string.
Variable DetectContentType : list Byte.byte → string.

Definition FileServer (root : Dir) : fileHandler := mkHandler root ∅.

(** The handler answering requests one after the other; a panic ends the
    sequence. *)
Fixpoint serveAll (f : fileHandler) (requests : list Request)
    : outcome (list Response * fileHandler) :=
  match requests with
  | [] => Returns ([], f)
  | r :: rest =>
      match ServeHTTP TypeByExtension MatchFile DetectContentType
              (rootDir f) (contentTypeCache f) r with
      | Panics => Panics
      | Returns (resp, cache') =>
          match serveAll (mkHandler (rootDir f) cache') rest with
          | Panics => Panics
          | Returns (resps, f') => Returns (resp :: resps, f')
          end
      end
  end.

(** Every key of the cache is the logical path of a request of [requests]
    for which the root holds a file, plain or compressed. *)
Definition backed (root : Dir) (requests : list Request)
    (cache : gmap string string) : Prop :=
  ∀ p, is_Some (cache !! p) →
    ∃ r ext, r ∈ requests ∧ p = originalPath (URLPath r) ∧
             ext ∈ extensions ∧ is_Some (root !! (p +:+ ext)).

End WithLibraries.
End Server.

(** ** The archiver: its file list and its teardown flag *)

Module Archive.
Import Strings.

(** The bytes before the first dot. *)
Fixpoint beforeDot (l : list ascii) : list ascii :=
  match l with
  | [] => []
  | c :: l' => if is_dot c then [] else c :: beforeDot l'
  end.

(** [strings.Split(s, ".")[0]]: the part of [s] before its first dot, all
    of [s] when it has none. *)
Definition firstField (s : string) : string := of_chars (beforeDot (chars s)).

(** [tempFile]; the open file is known by its name. *)
Record tempFile : Type := mkTempFile {
  name : string;
  object : string
}.

(** [Archiver], without its lock: the file list, and whether
    [destroyChan] has been closed. *)
Record Archiver : Type := mkArchiver {
  filelist : list tempFile;
  destroyed : bool
}.

Definition NewArchiver : Archiver := mkArchiver [] false.

(** [Destroy]: nothing is ever sent on the channel, so the receive of the
    [select] succeeds only when the channel is closed; otherwise the default
    case closes it. *)
Definition Destroy (a : Archiver) : Archiver :=
  if destroyed a then a else mkArchiver (filelist a) true.

Definition isDestroyed (a : Archiver) : bool := destroyed a.

(** [AddCSV], with what the system answers: [temp] is what
    [ioutil.TempFile] returns (the name of the new file) and [written] is
    what [writer.Error] returns once the lines have been written.  The bytes
    of the temporary file and the goroutine that deletes it are outside the
    model. *)
Definition AddCSV (a : Archiver) (filename : string) (lines : list (list string))
    (temp : string + error) (written : option error)
    : Archiver * option error :=
  if isDestroyed a then (a, Some ErrArchiverHasBeenDestroyed)
  else
    match temp with
    | inr err => (a, Some err)
    | inl file =>
        match written with
        | Some err => (a, Some err)
        | None =>
            let filename := firstField filename +:+ ".csv" in
            (mkArchiver (filelist a ++ [mkTempFile filename file]) (destroyed a),
             None)
        end
    end.

(** Calls on one archiver, one after the other, and what each returns
    ([Destroy] returns nothing). *)
Inductive call : Type :=
| CallAddCSV (filename : string) (lines : list (list string))
    (temp : string + error) (written : option error)
| CallDestroy.

Fixpoint perform (a : Archiver) (calls : list call)
    : Archiver * list (option error) :=
  match calls with
  | [] => (a, [])
  | CallAddCSV filename lines temp written :: rest =>
      let '(a1, res) := AddCSV a filename lines temp written in
      let '(a2, results) := perform a1 rest in
      (a2, res :: results)
  | CallDestroy :: rest =>
      let '(a2, results) := perform (Destroy a) rest in
      (a2, None :: results)
  end.

(** What a call returns on a destroyed archiver. *)
Definition refused (c : call) (res : option error) : Prop :=
  match c with
  | CallAddCSV _ _ _ _ => res = Some ErrArchiverHasBeenDestroyed
  | CallDestroy => res = None
  end.

End Archive.

(** ** Further concrete worlds *)

Module WorldMore.
Import World.
Import Handler (servedHeader).

(** An output directory in which the place of a brotli sibling is taken by
    a directory. *)
Definition outDisk : os.FS :=
  <["out" := os.Directory true]>
  (<["out/a.js" := os.RegularFile (bytes "a()") true]>
  (<["out/b.js" := os.RegularFile (bytes "b()") true]>
  (<["out/b.js.br" := os.Directory true]> ∅))).

Definition outTree : Walk.listing :=
  Walk.Listing "out"
    [Walk.Listing "a.js" []; Walk.Listing "b.js" []; Walk.Listing "b.js.br" []].

Definition outRun : os.FS * list string * option error :=
  Compress.CompressWebserverFiles gz br outDisk outTree "out".

(** The earlier walker on the build directory. *)
Definition earlierRun : os.FS * list string * option error :=
  EarlierMore.CompressFiles gz brFor Compress.webserverPattern
    buildDisk buildTree "build".

(** The page served from its gzip artifact. *)
Definition gzipPage : http.Response :=
  http.ServeContent (servedHeader "gzip" "text/html; charset=utf-8")
    "/index.html" 12 (regular "GZ(home)" 12 "index.html.gz").

Definition pageCache : gmap string string :=
  <["/index.html" := "text/html; charset=utf-8"]> ∅.

Definition notesResponse : http.Response :=
  http.ServeContent notesHeader "/notes" 30 (regular "plain words" 30 "notes").

(** An archiver that holds one table. *)
Definition oneTable : Archive.Archiver :=
  Archive.mkArchiver [Archive.mkTempFile "report.csv" "/tmp/go_archiver_1"] false.

End WorldMore.

Module PathExamples.
Import Filepath.

Example ext_js : Ext "/static/app.min.js" = ".js".
Proof. reflexivity. Qed.
Example ext_none : Ext "/static.d/README" = "".
Proof. reflexivity. Qed.
Example ext_gz : Ext "/static/app.js.gz" = ".gz".
Proof. reflexivity. Qed.
Example clean_root : Clean "/" = "/".
Proof. reflexivity. Qed.
Example clean_dots : Clean "/a/./b/../../c.js" = "/c.js".
Proof. reflexivity. Qed.
Example clean_above_root : Clean "/../../etc/passwd" = "/etc/passwd".
Proof. reflexivity. Qed.
Example clean_rel : Clean "a//b/../../../c/" = "../c".
Proof. reflexivity. Qed.
Example clean_empty : Clean "" = ".".
Proof. reflexivity. Qed.
Example join_ex : Join "build" "app.js" = "build/app.js".
Proof. reflexivity. Qed.
Example base_ex : Base "build/css/site.css" = "site.css".
Proof. reflexivity. Qed.
Example base_slash : Base "build/css/" = "css".
Proof. reflexivity. Qed.
End PathExamples.

(** * Properties of the file handler *)

Module HandlerFacts.
Import Strings Filepath header http Handler.

Section Facts.
Variable TypeByExtension : string → string.
Variable MatchFile : string → string.
Variable DetectContentType : list Byte.byte → string.
Variable rootDir : Dir.

Abbreviation determine := (determineContentType TypeByExtension MatchFile DetectContentType).
Abbreviation try := (tryServingContent TypeByExtension MatchFile DetectContentType rootDir).
Abbreviation serve := (ServeHTTP TypeByExtension MatchFile DetectContentType rootDir).
Abbreviation regularAt := (Handler.regularAt rootDir).

Lemma determine_after_stat cache p file fileInfo :
  Stat file = (fileInfo, None) →
  ∃ contentType cache', determine cache p file = Returns (contentType, cache').
Proof.
  intros Hstat. unfold determineContentType.
  destruct (getCachedContentType cache p) as [ct0 e0].
  destruct (negb (is_empty ct0)); [eauto|].
  destruct (negb (is_empty (TypeByExtension (Ext p)))); [eauto|].
  destruct (negb (is_empty (MatchFile p))); [eauto|].
  rewrite Hstat. simpl. eauto.
Qed.

Lemma try_regular r cache enc ext file fileInfo :
  regularAt (URLPath r) ext file fileInfo →
  ∃ contentType cache',
    determine cache (originalPath (URLPath r)) file = Returns (contentType, cache') ∧
    try r cache enc ext =
      Serves (ServeContent (servedHeader enc contentType) (URLPath r)
                (ModTime fileInfo) file) cache'.
Proof.
  intros (Hopen & Hstat & Hdir).
  destruct (determine_after_stat cache (originalPath (URLPath r)) file _ Hstat)
    as (ct & cache' & Hct).
  exists ct, cache'. split; [done|].
  unfold tryServingContent, Open, FromSlash.
  rewrite Hopen, Hstat, Hdir, Hct. done.
Qed.

Lemma try_serves_inv r cache enc ext resp cache' :
  try r cache enc ext = Serves resp cache' →
  ∃ file fileInfo contentType,
    regularAt (URLPath r) ext file fileInfo ∧
    determine cache (originalPath (URLPath r)) file = Returns (contentType, cache') ∧
    resp = ServeContent (servedHeader enc contentType) (URLPath r)
             (ModTime fileInfo) file.
Proof.
  unfold tryServingContent, Open, FromSlash.
  destruct (rootDir !! _) as [file|] eqn:Hopen; [|done].
  destruct (Stat file) as [[fi|] [e|]] eqn:Hstat; try done.
  destruct (IsDir fi) eqn:Hdir; [done|].
  destruct (determine _ _ _) as [[ct c]|] eqn:Hct; [|done].
  intros [= <- <-]. exists file, fi, ct. by repeat split.
Qed.

(** The inner loop: nothing happens without an eligible preference or
    when the attempt misses; otherwise the attempt decides. *)
Lemma rangeSpecs_not_eligible tr enc ext specs :
  existsb (λ spec, eligible spec enc ext) specs = false →
  rangeSpecs tr enc ext specs = None.
Proof.
  induction specs as [|spec rest IH]; simpl; [done|].
  intros [H1 H2]%orb_false_iff. rewrite H1. auto.
Qed.

Lemma rangeSpecs_misses tr enc ext specs err :
  tr enc ext = Misses err →
  rangeSpecs tr enc ext specs = None.
Proof.
  intros Hm. induction specs as [|spec rest IH]; simpl; [done|].
  rewrite Hm. by destruct (eligible spec enc ext).
Qed.

Lemma rangeSpecs_serves tr enc ext specs resp cache' :
  existsb (λ spec, eligible spec enc ext) specs = true →
  tr enc ext = Serves resp cache' →
  rangeSpecs tr enc ext specs = Some (Returns (resp, cache')).
Proof.
  intros He Hs. induction specs as [|spec rest IH]; simpl in *; [done|].
  rewrite Hs. destruct (eligible spec enc ext); [done|]. auto.
Qed.

Lemma rangeSpecs_some_inv tr enc ext specs res :
  rangeSpecs tr enc ext specs = Some res →
  existsb (λ spec, eligible spec enc ext) specs = true ∧
  match tr enc ext with
  | Serves resp cache' => res = Returns (resp, cache')
  | Crashes => res = Panics
  | Misses _ => False
  end.
Proof.
  induction specs as [|spec rest IH]; simpl; [done|].
  destruct (eligible spec enc ext) eqn:He.
  - destruct (tr enc ext) eqn:Ht.
    + intros [= <-]. done.
    + intros H. destruct (IH H) as [_ []].
    + intros [= <-]. done.
  - intros H. destruct (IH H) as [-> ?]. done.
Qed.

(** One turn of the outer loop. *)
Lemma rangeEncoders_skip tr specs cache enc ext later :
  accepted specs enc ext = false ∨ (∃ err, tr enc ext = Misses err) →
  rangeEncoders tr specs cache ((enc, ext) :: later) =
  rangeEncoders tr specs cache later.
Proof.
  intros H. simpl. destruct H as [Hna|[err Hm]].
  - apply orb_false_iff in Hna as [Hlen Hex].
    apply bool_decide_eq_false in Hlen.
    rewrite (rangeSpecs_not_eligible _ _ _ _ Hex).
    by destruct (decide (length specs = 0)).
  - rewrite (rangeSpecs_misses _ _ _ _ _ Hm), Hm.
    by destruct (decide (length specs = 0)).
Qed.

Lemma rangeEncoders_serves tr specs cache enc ext later resp cache' :
  accepted specs enc ext = true →
  tr enc ext = Serves resp cache' →
  rangeEncoders tr specs cache ((enc, ext) :: later) = Returns (resp, cache').
Proof.
  intros Ha Hs. simpl. rewrite Hs.
  destruct (decide (length specs = 0)) as [|Hne]; [done|].
  apply orb_true_iff in Ha as [Hlen|Hex].
  - by apply bool_decide_eq_true in Hlen.
  - by rewrite (rangeSpecs_serves _ _ _ _ _ _ Hex Hs).
Qed.

(** The first entry that is accepted and served ends the loop. *)
Lemma rangeEncoders_first tr specs cache entries i enc ext resp cache' :
  entries !! i = Some (enc, ext) →
  accepted specs enc ext = true →
  tr enc ext = Serves resp cache' →
  (∀ j enc' ext', j < i → entries !! j = Some (enc', ext') →
     accepted specs enc' ext' = false ∨ ∃ err, tr enc' ext' = Misses err) →
  rangeEncoders tr specs cache entries = Returns (resp, cache').
Proof.
  revert i. induction entries as [|[e x] later IH]; intros i Hi Ha Hs Hearlier.
  - done.
  - destruct i as [|i].
    + simpl in Hi. injection Hi as -> ->.
      by apply rangeEncoders_serves.
    + rewrite rangeEncoders_skip.
      * apply (IH i); [done..|].
        intros j e' x' Hj. apply (Hearlier (S j)). lia.
      * apply (Hearlier 0); [lia|done].
Qed.

(** Whatever the loop serves was accepted and served by one entry. *)
Lemma rangeEncoders_inv tr specs cache entries resp cache' :
  rangeEncoders tr specs cache entries = Returns (resp, cache') →
  (resp = NotFound ∧ cache' = cache) ∨
  ∃ enc ext, (enc, ext) ∈ entries ∧ accepted specs enc ext = true ∧
             tr enc ext = Serves resp cache'.
Proof.
  induction entries as [|[enc ext] later IH]; simpl.
  - intros [= <- <-]. by left.
  - assert (Hinner :
      match rangeSpecs tr enc ext specs with
      | Some done => done
      | None => rangeEncoders tr specs cache later
      end = Returns (resp, cache') →
      (resp = NotFound ∧ cache' = cache) ∨
      ∃ enc0 ext0, (enc0, ext0) ∈ (enc, ext) :: later ∧
        accepted specs enc0 ext0 = true ∧ tr enc0 ext0 = Serves resp cache').
    { destruct (rangeSpecs tr enc ext specs) as [res|] eqn:Hr.
      - intros ->. apply rangeSpecs_some_inv in Hr as [Hex Ht].
        right. exists enc, ext. split; [left|]. split.
        + unfold accepted. rewrite Hex. apply orb_true_r.
        + destruct (tr enc ext); try done. by injection Ht as <- <-.
      - intros H. destruct (IH H) as [?|(e & x & Hin & ? & ?)]; [by left|].
        right. exists e, x. split; [by right|done]. }
    destruct (decide (length specs = 0)) as [Hlen|Hlen]; [|done].
    destruct (tr enc ext) eqn:Ht; [|done..].
    intros [= <- <-]. right. exists enc, ext. split; [left|]. split; [|done].
    unfold accepted. by rewrite bool_decide_eq_true_2.
Qed.

Lemma accepted_listed specs spec enc ext :
  spec ∈ specs → Value spec = enc → isPositive (Q spec) = true →
  accepted specs enc ext = true.
Proof.
  intros Hin Hv Hq. unfold accepted. apply orb_true_iff. right.
  apply existsb_exists. exists spec. split; [by apply list_elem_of_In|].
  unfold eligible. rewrite Hq, bool_decide_eq_true_2; done.
Qed.

Lemma accepted_identity specs : accepted specs "" "" = true.
Proof.
  unfold accepted. destruct specs as [|spec rest]; [done|].
  simpl. unfold eligible at 1. simpl. by rewrite !orb_true_r.
Qed.

Lemma accepted_artifact_inv specs enc ext :
  accepted specs enc ext = true → ext ≠ "" → specs ≠ [] →
  ∃ spec, spec ∈ specs ∧ Value spec = enc ∧ isPositive (Q spec) = true.
Proof.
  intros Ha Hext Hne. apply orb_true_iff in Ha as [Hlen|Hex].
  - apply bool_decide_eq_true in Hlen. by destruct specs.
  - apply existsb_exists in Hex as (spec & Hin & He).
    exists spec. split; [by apply list_elem_of_In|].
    unfold eligible in He. apply orb_true_iff in He as [He|He].
    + apply andb_true_iff in He as [Hv Hq].
      by apply bool_decide_eq_true in Hv.
    + by destruct ext.
Qed.

Lemma servedHeader_type enc contentType :
  servedHeader enc contentType !! "Content-Type" = Some [contentType].
Proof. unfold servedHeader, HeaderSet. by rewrite lookup_insert_eq. Qed.

Lemma servedHeader_encoding enc contentType :
  servedHeader enc contentType !! "Content-Encoding" = Some [enc].
Proof.
  unfold servedHeader, HeaderSet.
  by rewrite lookup_insert_ne, lookup_insert_eq.
Qed.

(** C1.  Candidates are tried in the catalog order br, gzip, identity, and
    the first entry that the client accepts (it lists the token with a
    quality above zero, whatever the value) and whose file opens as a regular
    file is the one served: every entry before it was either not accepted or
    missed.  With several accepted encodings present on disk, the highest in
    the catalog wins. *)
Theorem serves_first_accepted_in_catalog_order r cache i enc ext file fileInfo :
  catalog !! i = Some (enc, ext) →
  accepted (AcceptEncoding r) enc ext = true →
  regularAt (URLPath r) ext file fileInfo →
  (∀ j enc' ext', j < i → catalog !! j = Some (enc', ext') →
     accepted (AcceptEncoding r) enc' ext' = false ∨
     ∃ err, try r cache enc' ext' = Misses err) →
  ∃ contentType cache',
    determine cache (originalPath (URLPath r)) file = Returns (contentType, cache') ∧
    serve cache r =
      Returns (ServeContent (servedHeader enc contentType) (URLPath r)
                 (ModTime fileInfo) file, cache').
Proof.
  intros Hi Ha Hreg Hearlier.
  destruct (try_regular r cache enc ext file fileInfo Hreg) as (ct & cache' & Hct & Htry).
  exists ct, cache'. split; [done|].
  unfold ServeHTTP. by eapply rangeEncoders_first.
Qed.

(** C5.  A token that the header lists, and lists with quality zero only,
    is never the encoding of the response, whether or not its artifact is on
    disk; with [gzip;q=0] alone the handler goes on to the identity variant
    and, when that misses, to the not-found response. *)
Theorem quality_zero_is_never_served r cache :
  (∀ token,
     token ≠ "" →
     (∃ spec, spec ∈ AcceptEncoding r ∧ Value spec = token) →
     (∀ spec, spec ∈ AcceptEncoding r → Value spec = token →
        isPositive (Q spec) = false) →
     ∀ resp cache', serve cache r = Returns (resp, cache') →
       servedEncoding resp ≠ Some token) ∧
  (∀ quality, AcceptEncoding r = [mkSpec "gzip" quality] →
     isPositive quality = false →
     serve cache r =
       match try r cache "" "" with
       | Serves resp cache' => Returns (resp, cache')
       | Misses _ => Returns (NotFound, cache)
       | Crashes => Panics
       end).
Proof.
  split.
  - intros token Htok (spec0 & Hin0 & Hv0) Hzero resp cache' Hserve.
    unfold ServeHTTP in Hserve.
    apply rangeEncoders_inv in Hserve as [[-> _]|(enc & ext & Hin & Ha & Htry)];
      [done|].
    apply try_serves_inv in Htry as (file & fi & ct & _ & _ & ->).
    simpl. unfold HeaderGet. rewrite servedHeader_encoding.
    intros [= ->].
    assert (ext ≠ "") as Hext.
    { unfold catalog in Hin. simpl in Hin.
      repeat (apply elem_of_cons in Hin as [Hin|Hin]; [by simplify_eq|]).
      by apply elem_of_nil in Hin. }
    destruct (accepted_artifact_inv _ _ _ Ha Hext) as (spec & Hin' & Hv & Hq).
    { intros Hnil. rewrite Hnil in Hin0. by apply elem_of_nil in Hin0. }
    rewrite (Hzero spec Hin' Hv) in Hq. done.
  - intros quality Hspecs Hq. unfold ServeHTTP. rewrite Hspecs.
    unfold catalog. simpl. unfold eligible. simpl. rewrite Hq. simpl.
    by destruct (try r cache "" "").
Qed.



(** C10.  The identity entry passes the eligibility test for every
    preference, so a request that lists [identity;q=0] is still served the
    uncompressed file when no compressed variant is served before it. *)
Theorem identity_is_eligible_at_quality_zero r cache file fileInfo :
  (∀ spec, eligible spec "" "" = true) ∧
  (mkSpec "identity" (Qmake 0 1) ∈ AcceptEncoding r →
   regularAt (URLPath r) "" file fileInfo →
   (∀ enc ext, (enc, ext) ∈ [("br", ".br"); ("gzip", ".gz")] →
      accepted (AcceptEncoding r) enc ext = false ∨
      ∃ err, try r cache enc ext = Misses err) →
   ∃ contentType cache',
     serve cache r =
       Returns (ServeContent (servedHeader "" contentType) (URLPath r)
                  (ModTime fileInfo) file, cache')).
Proof.
  split.
  - intros spec. unfold eligible. simpl. apply orb_true_r.
  - intros _ Hreg Hcompressed.
    destruct (try_regular r cache "" "" file fileInfo Hreg) as (ct & cache' & _ & Htry).
    exists ct, cache'. unfold ServeHTTP.
    apply (rangeEncoders_first _ _ _ catalog 2 "" ""); [done|apply accepted_identity|done|].
    intros j enc' ext' Hj Hcat. apply Hcompressed.
    destruct j as [|[|j]]; [| |lia]; simpl in Hcat; injection Hcat as <- <-.
    + by left.
    + right. by left.
Qed.

End Facts.
End HandlerFacts.

(** ** The handler on the example site *)

Module HandlerExamples.
Import Strings Filepath header http Handler HandlerFacts World.

Abbreviation serveSite :=
  (ServeHTTP typeByExtension matchFile detectContentType site).

(** [Accept-Encoding: gzip;q=1.0, br;q=0.5] for [/]: the page's brotli
    artifact is served although gzip has the higher quality. *)
Lemma serves_first_accepted_witness :
  let r := mkRequest "/" [mkSpec "gzip" (q 1 1); mkSpec "br" (q 1 2)] in
  accepted (AcceptEncoding r) "gzip" ".gz" = true ∧
  accepted (AcceptEncoding r) "br" ".br" = true ∧
  is_Some (site !! "/index.html.gz") ∧
  ∃ contentType cache',
    determineContentType typeByExtension matchFile detectContentType ∅
      (originalPath "/") (regular "BR(home)" 11 "index.html.br")
      = Returns (contentType, cache') ∧
    serveSite ∅ r =
      Returns (ServeContent (servedHeader "br" contentType) "/" 11
                 (regular "BR(home)" 11 "index.html.br"), cache').
Proof.
  split; [reflexivity|]. split; [reflexivity|]. split; [by eexists|].
  apply (serves_first_accepted_in_catalog_order typeByExtension matchFile
           detectContentType site
           (mkRequest "/" [mkSpec "gzip" (q 1 1); mkSpec "br" (q 1 2)]) ∅
           0 "br" ".br" (regular "BR(home)" 11 "index.html.br")
           (mkFileInfo "index.html.br" 8 11 false)).
  - reflexivity.
  - reflexivity.
  - repeat split.
  - intros j enc' ext' Hj. lia.
Defined.

(** The same page for a client that sends [br, gzip] when only the gzip
    artifact of the script exists: the second catalog entry is served. *)
Example falls_back_to_gzip :
  ∃ cache',
    serveSite ∅ (mkRequest "/app.js" [mkSpec "br" (q 1 1); mkSpec "gzip" (q 1 1)]) =
      Returns (ServeContent
                 (servedHeader "gzip" "text/javascript; charset=utf-8")
                 "/app.js" 21 (regular "GZ(let x)" 21 "app.js.gz"), cache').
Proof. eexists. vm_compute. reflexivity. Qed.

(** [Accept-Encoding: gzip;q=0] for the script, whose gzip artifact is on
    disk: the uncompressed script is served. *)
Lemma quality_zero_witness :
  is_Some (site !! "/app.js.gz") ∧
  ∃ cache',
    serveSite ∅ (mkRequest "/app.js" [mkSpec "gzip" (q 0 1)]) =
      Returns (ServeContent (servedHeader "" "text/javascript; charset=utf-8")
                 "/app.js" 20 (regular "let x" 20 "app.js"), cache').
Proof.
  split; [by eexists|]. eexists.
  rewrite (proj2 (quality_zero_is_never_served typeByExtension matchFile
                    detectContentType site
                    (mkRequest "/app.js" [mkSpec "gzip" (q 0 1)]) ∅)
             (q 0 1) eq_refl eq_refl).
  vm_compute. reflexivity.
Defined.

(** No [Accept-Encoding] at all: the script still comes gzip-encoded. *)
Example no_preferences_example :
  ∃ cache',
    serveSite ∅ (mkRequest "/app.js" []) =
      Returns (ServeContent
                 (servedHeader "gzip" "text/javascript; charset=utf-8")
                 "/app.js" 21 (regular "GZ(let x)" 21 "app.js.gz"), cache').
Proof. eexists. vm_compute. reflexivity. Qed.

(** A directory is a miss for its candidate, and with nothing else to try
    the answer is not found. *)
Example directory_is_not_served :
  serveSite ∅ (mkRequest "/img" []) = Returns (NotFound, ∅).
Proof. vm_compute. reflexivity. Qed.



(** C8, where the code departs from it.  For a path that the cache, the
    extension table and the magic numbers do not resolve, and a handle whose
    [Stat] fails with a nil [FileInfo], [determineContentType] does not
    return a type: the test [err != nil && fileInfo.Size() < 512] calls
    [Size] on the nil value. *)
Theorem determineContentType_panics_when_stat_fails :
  determineContentType typeByExtension matchFile detectContentType ∅
    "/notes" (unstattable "plain words") = Panics.
Proof. reflexivity. Qed.

(** [Accept-Encoding: identity;q=0] for the page: no compressed variant is
    accepted, and the uncompressed page is served all the same. *)
Lemma identity_is_eligible_witness :
  let r := mkRequest "/" [mkSpec "identity" (q 0 1)] in
  mkSpec "identity" (Qmake 0 1) ∈ AcceptEncoding r ∧
  ∃ contentType cache',
    serveSite ∅ r =
      Returns (ServeContent (servedHeader "" contentType) "/" 10
                 (regular "<html>home</html>" 10 "index.html"), cache').
Proof.
  split; [by left|].
  apply (proj2 (identity_is_eligible_at_quality_zero typeByExtension matchFile
                  detectContentType site
                  (mkRequest "/" [mkSpec "identity" (q 0 1)]) ∅
                  (regular "<html>home</html>" 10 "index.html")
                  (mkFileInfo "index.html" 17 10 false))).
  - by left.
  - repeat split.
  - intros enc ext Hin. left.
    apply elem_of_cons in Hin as [Hin|Hin]; [by injection Hin as -> ->|].
    apply elem_of_cons in Hin as [Hin|Hin]; [by injection Hin as -> ->|].
    by apply elem_of_nil in Hin.
Defined.

End HandlerExamples.

(** * Properties of the walk *)

Module WalkFacts.
Import Filepath os Walk.

(** Induction over a listing with the hypothesis for every entry. *)
Lemma listing_forall_ind (P : listing → Prop) :
  (∀ name entries, Forall P entries → P (Listing name entries)) →
  ∀ l, P l.
Proof.
  intros Hstep. fix IH 1. intros [name entries]. apply Hstep.
  induction entries as [|e es IHes]; constructor; [apply IH|exact IHes].
Qed.

(** A listing has grown from itself, and [grown] is monotone in what counts
    as fresh. *)
Lemma grown_refl (fresh : string → Prop) l : ∀ path, grown fresh path l l.
Proof.
  induction l as [name entries IH] using listing_forall_ind.
  intros path. constructor.
  induction IH as [|e es He _ IHes]; constructor; [|exact IHes].
  split; [done|apply He].
Qed.

Lemma grown_impl (fresh fresh' : string → Prop) :
  (∀ q, fresh q → fresh' q) →
  ∀ l path l2, grown fresh path l l2 → grown fresh' path l l2.
Proof.
  intros Himp.
  induction l as [name entries IH] using listing_forall_ind.
  intros path l2 Hg.
  inversion Hg as [path' name' name2 entries' entries2 Hil]; subst.
  constructor. clear Hg. revert IH.
  induction Hil as [|x y xs ys [Hname Hsub] _ IHil|y xs ys Hextra _ IHil];
    intros IH.
  - constructor.
  - apply Forall_cons in IH as [Hx Hxs].
    apply interleave_keep; [|by apply IHil].
    split; [done|]. by apply Hx.
  - apply interleave_extra; [by apply Himp|]. by apply IHil.
Qed.

Section Runs.
Context {S : Type}.
Variable fsOf : S → FS.
Variable walkFn : string → visit → S → S * option error.

Abbreviation handed := (Walk.handed fsOf).
Abbreviation run := (Walk.run fsOf walkFn).
Abbreviation runs := (Walk.runs fsOf walkFn).

Lemma run_trans s s1 s2 err :
  run s s1 None → run s1 s2 err → run s s2 err.
Proof.
  intros H1 H2. remember None as none eqn:Hn.
  induction H1 as [s|s p v sa s1 e Hh Hw H1 IH|s p v sa s1 e Hh Hw H1 IH|];
    subst; eauto using Walk.run.
  discriminate.
Qed.

Lemma run_absorb s s1 :
  run s s1 (Some SkipDir) → run s s1 None.
Proof.
  intros H. remember (Some SkipDir) as skip eqn:Hs.
  induction H as [s|s p v sa s1 e Hh Hw H IH|s p v sa s1 e Hh Hw H IH|s p v s1 e Hh Hw];
    subst; try discriminate; eauto using Walk.run.
  injection Hs as ->. eauto using Walk.run.
Qed.

Lemma walkNames_run rec path es :
  Forall (runs rec) es →
  ∀ s s' err, walkNames fsOf walkFn rec path es s = (s', err) → run s s' err.
Proof.
  induction 1 as [|e es He Hes IH]; intros s s' err; simpl.
  - intros [= <- <-]. constructor.
  - destruct (Lstat (fsOf s) (Join path (entryName e))) as [fileInfo|lerr] eqn:Hl.
    + destruct (rec _ fileInfo e s) as [s1 [err1|]] eqn:Hrec.
      * apply (He _ _ _ _ _ Hl) in Hrec.
        destruct (negb (IsDir fileInfo) || bool_decide (err1 ≠ SkipDir)) eqn:Hc.
        -- by intros [= <- <-].
        -- apply orb_false_iff in Hc as [_ Hc].
           apply bool_decide_eq_false in Hc. apply dec_stable in Hc as ->.
           intros Hrest. eapply run_trans; [by apply run_absorb|by apply IH].
      * apply (He _ _ _ _ _ Hl) in Hrec.
        intros Hrest. eapply run_trans; [done|by apply IH].
    + destruct (walkFn _ (Failed None lerr) s) as [s1 [err1|]] eqn:Hw.
      * destruct (decide (err1 = SkipDir)) as [->|Hne].
        -- intros Hrest.
           eapply (run_skip _ _ _ _ (Failed None lerr)); [exact I|exact Hw|by apply IH].
        -- intros [= <- <-]. by eapply (run_stop _ _ _ _ (Failed None lerr)).
      * intros Hrest.
        eapply (run_step _ _ _ _ (Failed None lerr)); [exact I|exact Hw|by apply IH].
Qed.

(** One unfolding of [walk]. *)
Lemma walk_unfold path info name entries s :
  walk fsOf walkFn path info (Listing name entries) s =
  if negb (IsDir info) then walkFn path (Info info) s
  else
    match readDirNames (fsOf s) path (Listing name entries) with
    | inr err => walkFn path (Failed (Some info) err) s
    | inl _ =>
        match walkFn path (Info info) s with
        | (s1, Some err1) => (s1, Some err1)
        | (s1, None) => walkNames fsOf walkFn (walk fsOf walkFn) path entries s1
        end
    end.
Proof. reflexivity. Qed.

Lemma walk_run l : runs (walk fsOf walkFn) l.
Proof.
  induction l as [name entries IH] using listing_forall_ind.
  intros path info s s' err Hl. simpl.
  destruct (negb (IsDir info)).
  { intros Hw. destruct err as [err|].
    - by eapply (run_stop _ _ _ _ (Info info)).
    - eapply (run_step _ _ _ _ (Info info)); [exact Hl|exact Hw|constructor]. }
  destruct (readDirNames (fsOf s) path (Listing name entries)) as [?|rerr].
  - destruct (walkFn path (Info info) s) as [s1 [err1|]] eqn:Hw.
    + intros [= <- <-]. by eapply (run_stop _ _ _ _ (Info info)).
    + intros Hrest. eapply (run_step _ _ _ _ (Info info)); [exact Hl|exact Hw|].
      by eapply walkNames_run.
  - intros Hw. destruct err as [err|].
    + by eapply (run_stop _ _ _ _ (Failed (Some info) rerr)).
    + eapply (run_step _ _ _ _ (Failed (Some info) rerr)); [exact I|exact Hw|constructor].
Qed.

Lemma Walk_run root l s s' err :
  Walk fsOf walkFn root l s = (s', err) → run s s' err.
Proof.
  unfold Walk.
  destruct (Lstat (fsOf s) root) as [info|lerr] eqn:Hl.
  - destruct (walk fsOf walkFn root info l s) as [s1 err1] eqn:Hw.
    apply (walk_run _ _ _ _ _ _ Hl) in Hw.
    destruct (decide (err1 = Some SkipDir)) as [->|Hne]; intros [= <- <-].
    + by apply run_absorb.
    + done.
  - destruct (walkFn root (Failed None lerr) s) as [s1 err1] eqn:Hw.
    destruct (decide (err1 = Some SkipDir)) as [->|Hne]; intros [= <- <-].
    + eapply (run_skip _ _ _ _ (Failed None lerr)); [exact I|exact Hw|constructor].
    + destruct err1 as [e1|].
      * by eapply (run_stop _ _ _ _ (Failed None lerr)).
      * eapply (run_step _ _ _ _ (Failed None lerr)); [exact I|exact Hw|constructor].
Qed.

End Runs.
End WalkFacts.

(** * Properties of the compression walker *)

Module PathFacts.
Import Strings Filepath.

Lemma chars_app (a b : string) : chars (a +:+ b) = chars a ++ chars b.
Proof.
  unfold chars. induction a as [|c a IH]; simpl; [done|]. by rewrite IH.
Qed.

Lemma chars_inj (a b : string) : chars a = chars b → a = b.
Proof.
  unfold chars. intros H.
  rewrite <- (Stdlib.Strings.String.string_of_list_ascii_of_string a),
          <- (Stdlib.Strings.String.string_of_list_ascii_of_string b).
  by rewrite H.
Qed.

(** Appending the same suffix to different paths gives different paths. *)
Lemma append_suffix_inj (p q suffix : string) :
  p +:+ suffix = q +:+ suffix → p = q.
Proof.
  intros H. apply chars_inj. apply (f_equal chars) in H.
  rewrite !chars_app in H. by apply app_inv_tail in H.
Qed.

Lemma Ext_gz (p : string) : Ext (p +:+ ".gz") = ".gz".
Proof.
  unfold Ext. rewrite chars_app, rev_app_distr. reflexivity.
Qed.

Lemma Ext_br (p : string) : Ext (p +:+ ".br") = ".br".
Proof.
  unfold Ext. rewrite chars_app, rev_app_distr. reflexivity.
Qed.

End PathFacts.

Module CompressFacts.
Import Strings Filepath os Walk Compress WalkFacts PathFacts.

Section Facts.
Variable gzipBest : list Byte.byte → list Byte.byte.
Variable brotliDefault : list Byte.byte → list Byte.byte.
Variable rgx : string → string.

Abbreviation callback := (walkFn gzipBest brotliDefault rgx).
Abbreviation ran := (run fs callback).
Abbreviation visited := (Compress.visited gzipBest brotliDefault rgx).
Abbreviation source := (Compress.source rgx).
Abbreviation compressed := (Compress.compressed gzipBest brotliDefault).
Abbreviation settled := (Compress.settled gzipBest brotliDefault rgx).
Abbreviation reruns := (Compress.reruns gzipBest brotliDefault rgx).
Abbreviation covers := (Compress.covers gzipBest brotliDefault rgx).

Lemma Create_inl disk path disk' :
  Create disk path = inl disk' →
  writable disk path ∧ disk' = <[path := RegularFile [] true]> disk.
Proof.
  unfold Create, writable.
  destruct (disk !! path) as [[data [|]|a]|] eqn:Hn; try done;
    intros [= <-]; eauto.
Qed.

Lemma Create_writable disk path :
  writable disk path → Create disk path = inl (<[path := RegularFile [] true]> disk).
Proof.
  unfold Create, writable. by intros [->|[data ->]].
Qed.

Lemma WriteAll_Create disk path disk' bytes :
  Create disk path = inl disk' → WriteAll disk' path bytes = WriteAll disk path bytes.
Proof.
  intros [_ ->]%Create_inl. unfold WriteAll. apply insert_insert_eq.
Qed.

Lemma gz_ne_br (p q : string) : p +:+ ".gz" ≠ q +:+ ".br".
Proof.
  intros H. apply (f_equal Ext) in H. by rewrite Ext_gz, Ext_br in H.
Qed.

Lemma writable_WriteAll_ne disk path other bytes :
  path ≠ other →
  writable (WriteAll disk other bytes) path ↔ writable disk path.
Proof.
  intros Hne. unfold writable, WriteAll. by rewrite lookup_insert_ne.
Qed.

Lemma Lstat_regular disk p fileInfo :
  Lstat disk p = inl fileInfo → IsDir fileInfo = false →
  Name fileInfo = Base p ∧ ∃ data access, disk !! p = Some (RegularFile data access).
Proof.
  unfold Lstat. destruct (disk !! p) as [[data a|a]|]; try done.
  - intros [= <-] _. eauto.
  - by intros [= <-].
Qed.

Lemma Open_regular disk p data access bytes :
  disk !! p = Some (RegularFile data access) → Open disk p = inl bytes →
  access = true ∧ bytes = data.
Proof.
  unfold Open. intros ->. destruct access; [|done]. by intros [= <-].
Qed.

Lemma walkFn_visited p v s s' err :
  handed fs s p v → callback p v s = (s', err) → visited s p s' err.
Proof.
  destruct v as [fileInfo|fileInfo verr]; simpl.
  2: { intros _ [= <- <-]. constructor. }
  intros Hl.
  destruct (negb (IsDir fileInfo) && negb (is_empty (rgx (Name fileInfo)))) eqn:Hm.
  2: { intros [= <- <-]. constructor. }
  apply andb_true_iff in Hm as [Hdir Hname].
  apply negb_true_iff in Hdir. apply negb_true_iff in Hname.
  destruct (Lstat_regular _ _ _ Hl Hdir) as (Hbase & data & access & Hnode).
  rewrite Hbase in Hname.
  destruct (Open (fs s) p) as [bytes|oerr] eqn:Hopen.
  2: { unfold Open in Hopen. rewrite Hnode in Hopen.
       destruct access; [done|]. injection Hopen as <-.
       intros [= <- <-]. by eapply visit_unopened. }
  destruct (Open_regular _ _ _ _ _ Hnode Hopen) as [-> ->].
  assert (source (fs s) p data) as Hsrc by done.
  destruct (negb (bool_decide (Ext p = ".gz")) && negb (bool_decide (Ext p = ".br")))
    eqn:Hext.
  2: { intros [= <- <-]. eapply visit_kept; [done|].
       intros [Hgz Hbr]. apply andb_false_iff in Hext as [He|He];
         apply negb_false_iff, bool_decide_eq_true in He; done. }
  apply andb_true_iff in Hext as [Hgz Hbr].
  apply negb_true_iff, bool_decide_eq_false in Hgz.
  apply negb_true_iff, bool_decide_eq_false in Hbr.
  assert (plain p) as Hplain by done.
  destruct (Create (fs s) (p +:+ ".gz")) as [fs1|cerr] eqn:Hc1.
  2: { intros [= <- <-]. by eapply visit_gz_failed. }
  rewrite (WriteAll_Create _ _ _ _ Hc1).
  apply Create_inl in Hc1 as [Hw1 _].
  destruct (Create _ (p +:+ ".br")) as [fs3|cerr] eqn:Hc2.
  2: { intros [= <- <-]. by eapply visit_br_failed. }
  rewrite (WriteAll_Create _ _ _ _ Hc2).
  apply Create_inl in Hc2 as [Hw2 _].
  apply writable_WriteAll_ne in Hw2; [|intros Heq; symmetry in Heq; by apply gz_ne_br in Heq].
  intros [= <- <-]. by eapply visit_compressed.
Qed.

(** The errors of the callback are never [SkipDir], so the walk never
    absorbs one. *)
Lemma Create_not_SkipDir disk p : Create disk p ≠ inr SkipDir.
Proof. unfold Create. by destruct (disk !! p) as [[data [|]|[|]]|]. Qed.

Lemma visited_not_SkipDir s p s' : ¬ visited s p s' (Some SkipDir).
Proof.
  inversion 1; subst; by eapply Create_not_SkipDir.
Qed.

(** A relation that every call of the callback respects holds between the
    ends of a run. *)
Lemma run_respects (R : state → state → Prop) :
  (∀ s, R s s) →
  (∀ s1 s2 s3, R s1 s2 → R s2 s3 → R s1 s3) →
  (∀ s p s' err, visited s p s' err → R s s') →
  ∀ s s' err, ran s s' err → R s s'.
Proof.
  intros Hrefl Htrans Hstep s s' err Hrun.
  induction Hrun as [s|s p v s1 s' e Hh Hw _ IH|s p v s1 s' e Hh Hw _ IH|s p v s1 e Hh Hw].
  - apply Hrefl.
  - eapply Htrans; [|exact IH]. eapply Hstep, walkFn_visited; [exact Hh|exact Hw].
  - eapply Htrans; [|exact IH]. eapply Hstep, walkFn_visited; [exact Hh|exact Hw].
  - eapply Hstep, walkFn_visited; [exact Hh|exact Hw].
Qed.

(** The same for a run that ends without an error, where only the calls
    that returned nil matter. *)
Lemma run_success_respects (R : state → state → Prop) :
  (∀ s, R s s) →
  (∀ s1 s2 s3, R s1 s2 → R s2 s3 → R s1 s3) →
  (∀ s p s', visited s p s' None → R s s') →
  ∀ s s', ran s s' None → R s s'.
Proof.
  intros Hrefl Htrans Hstep s s' Hrun.
  assert (∀ err, ran s s' err → err = None → R s s') as Haux; [|by eapply Haux].
  clear Hrun. intros err Hrun.
  induction Hrun as [s|s p v s1 s' e Hh Hw _ IH|s p v s1 s' e Hh Hw _ IH|s p v s1 e Hh Hw];
    intros Hnone.
  - apply Hrefl.
  - eapply Htrans; [|by apply IH]. eapply Hstep, walkFn_visited; [exact Hh|exact Hw].
  - apply (walkFn_visited _ _ _ _ _ Hh) in Hw. by apply visited_not_SkipDir in Hw.
  - discriminate.
Qed.

(** An error that a run returns is the error of its last call. *)
Lemma run_error_origin s s' err :
  ran s s' (Some err) → ∃ s1 p, ran s s1 None ∧ visited s1 p s' (Some err).
Proof.
  intros Hrun. remember (Some err) as some eqn:Hsome.
  induction Hrun as [s|s p v s1 s' e Hh Hw _ IH|s p v s1 s' e Hh Hw _ IH|s p v s1 e Hh Hw].
  - discriminate.
  - destruct (IH Hsome) as (s2 & p2 & Hrun & Hv).
    exists s2, p2. split; [|done]. by eapply run_step.
  - destruct (IH Hsome) as (s2 & p2 & Hrun & Hv).
    exists s2, p2. split; [|done]. by eapply run_skip.
  - injection Hsome as ->. exists s, p. split; [constructor|].
    eapply walkFn_visited; [exact Hh|exact Hw].
Qed.

(** *** What the walk leaves alone *)

Lemma plain_ne_gz p q : plain q → q ≠ p +:+ ".gz".
Proof. intros [Hgz _] ->. by rewrite Ext_gz in Hgz. Qed.

Lemma plain_ne_br p q : plain q → q ≠ p +:+ ".br".
Proof. intros [_ Hbr] ->. by rewrite Ext_br in Hbr. Qed.

Lemma visited_framed s p s' err : visited s p s' err → framed s s'.
Proof.
  intros Hv q Hq. pose proof (plain_ne_gz p q Hq). pose proof (plain_ne_br p q Hq).
  inversion Hv; subst; simpl; unfold WriteAll;
    rewrite ?lookup_insert_ne by done; done.
Qed.

Lemma run_framed s s' err : ran s s' err → framed s s'.
Proof.
  apply run_respects.
  - by intros s0 q.
  - intros s1 s2 s3 H12 H23 q Hq. by rewrite H23, H12.
  - apply visited_framed.
Qed.

Lemma visited_accounted s p s' err : visited s p s' err → accounted s s'.
Proof.
  inversion 1; subst; unfold accounted; simpl.
  - exists []. split; [by rewrite app_nil_r|]. by left.
  - exists []. split; [by rewrite app_nil_r|]. by left.
  - exists [p]. split; [done|]. by left.
  - exists [p]. split; [done|]. by left.
  - exists [p]. split; [done|]. intros q. unfold WriteAll.
    destruct (decide (q = p +:+ ".gz")) as [->|Hne].
    + right. exists p. split_and!; [by left|done|by left].
    + left. by rewrite lookup_insert_ne.
  - exists [p]. split; [done|]. intros q. unfold WriteAll.
    destruct (decide (q = p +:+ ".br")) as [->|Hbr].
    { right. exists p. split_and!; [by left|done|by right]. }
    destruct (decide (q = p +:+ ".gz")) as [->|Hgz].
    { right. exists p. split_and!; [by left|done|by left]. }
    left. by rewrite !lookup_insert_ne.
Qed.

Lemma run_accounted s s' err : ran s s' err → accounted s s'.
Proof.
  apply run_respects.
  - intros s0. exists []. split; [by rewrite app_nil_r|]. by left.
  - intros s1 s2 s3 (a12 & Hm12 & H12) (a23 & Hm23 & H23).
    exists (a12 ++ a23). split; [by rewrite Hm23, Hm12, app_assoc|].
    intros q. destruct (H23 q) as [Heq|(p & Hp & Hq)].
    + rewrite Heq. destruct (H12 q) as [?|(p & Hp & Hq)]; [by left|].
      right. exists p. split; [|done]. apply elem_of_app. by left.
    + right. exists p. split; [|done]. apply elem_of_app. by right.
  - apply visited_accounted.
Qed.

Lemma WriteAll_held disk path bytes q n :
  writable disk path → locked n →
  WriteAll disk path bytes !! q = Some n ↔ disk !! q = Some n.
Proof.
  intros Hw Hn. unfold WriteAll.
  destruct (decide (path = q)) as [->|Hne]; [|by rewrite lookup_insert_ne].
  rewrite lookup_insert_eq. split.
  - intros [= <-]. done.
  - intros Hq. destruct Hw as [Hw|[data Hw]]; rewrite Hw in Hq; [done|].
    injection Hq as <-. done.
Qed.

Lemma visited_held s p s' err : visited s p s' err → held s s'.
Proof.
  inversion 1 as [| | | |data e Hsrc Hplain Hw1 Hc|data Hsrc Hplain Hw1 Hw2];
    subst; intros q n Hn; simpl; try done.
  - by apply WriteAll_held.
  - rewrite WriteAll_held; [by apply WriteAll_held| |done].
    apply writable_WriteAll_ne; [|done].
    intros Heq. symmetry in Heq. by apply gz_ne_br in Heq.
Qed.

Lemma run_held s s' err : ran s s' err → held s s'.
Proof.
  apply run_respects.
  - by intros s0 q n.
  - intros s1 s2 s3 H12 H23 q n Hn. by rewrite (H23 q n Hn), (H12 q n Hn).
  - apply visited_held.
Qed.

Lemma Create_inr disk path err :
  Create disk path = inr err →
  ∃ n, locked n ∧ disk !! path = Some n ∧
       ∀ disk', disk' !! path = Some n → Create disk' path = inr err.
Proof.
  unfold Create. destruct (disk !! path) as [[data [|]|a]|] eqn:Hn; try done.
  - intros [= <-]. exists (RegularFile data false).
    split_and!; [done..|]. by intros disk' ->.
  - intros [= <-]. exists (Directory a).
    split_and!; [done..|]. by intros disk' ->.
Qed.

Lemma Create_inr_held s s' path err :
  held s s' → Create (fs s') path = inr err → Create (fs s) path = inr err.
Proof.
  intros Hheld (n & Hn & Hlook & Hsame)%Create_inr.
  apply Hsame. by apply (Hheld path n Hn).
Qed.

(** *** What the walk has written when it succeeds *)

Lemma visited_compressed s p s' :
  visited s p s' None → compressed s → compressed s'.
Proof.
  inversion 1 as [| |data Hsrc Hnp| | |data Hsrc Hplain Hw1 Hw2]; subst; [done| |].
  - intros Hc p' Hin Hp'. simpl in *.
    apply elem_of_app in Hin as [Hin|Hin]; [by apply Hc|].
    apply list_elem_of_singleton in Hin as ->. done.
  - intros Hc p' Hin Hp'. simpl in *. unfold WriteAll.
    pose proof (plain_ne_gz p p' Hp'). pose proof (plain_ne_br p p' Hp').
    assert (p' = p ∨ (p' ≠ p ∧ p' ∈ matches s)) as [->|[Hne Hold]].
    { apply elem_of_app in Hin as [Hin|Hin].
      - destruct (decide (p' = p)); [by left|by right].
      - apply list_elem_of_singleton in Hin. by left. }
    + exists data. destruct Hsrc as [Hnode _].
      assert (p +:+ ".br" ≠ p +:+ ".gz") by (intros Heq; symmetry in Heq; by apply gz_ne_br in Heq).
      split_and!.
      * by rewrite !lookup_insert_ne by done.
      * by rewrite lookup_insert_ne, lookup_insert_eq by done.
      * by rewrite lookup_insert_eq.
    + destruct (Hc p' Hold Hp') as (data' & Hnode & Hgz & Hbr).
      assert (p +:+ ".gz" ≠ p' +:+ ".gz") by (by intros ?%append_suffix_inj).
      assert (p +:+ ".br" ≠ p' +:+ ".br") by (by intros ?%append_suffix_inj).
      assert (p +:+ ".gz" ≠ p' +:+ ".br") by apply gz_ne_br.
      assert (p +:+ ".br" ≠ p' +:+ ".gz") by (intros Heq; symmetry in Heq; by apply gz_ne_br in Heq).
      exists data'. by rewrite !lookup_insert_ne by done.
Qed.

Lemma run_compressed s s' : ran s s' None → compressed s → compressed s'.
Proof.
  apply (run_success_respects (λ s s', compressed s → compressed s')).
  - done.
  - intros s1 s2 s3 H12 H23 Hc. auto.
  - apply visited_compressed.
Qed.

(** *** Running the walk again *)

Lemma WriteAll_is_Some disk path bytes q :
  is_Some (disk !! q) → is_Some (WriteAll disk path bytes !! q).
Proof.
  intros Hq. unfold WriteAll.
  destruct (decide (path = q)) as [->|Hne].
  - rewrite lookup_insert_eq. by eexists.
  - by rewrite lookup_insert_ne.
Qed.

Lemma visited_persisted s p s' err : visited s p s' err → persisted s s'.
Proof.
  inversion 1; subst; intros q Hq; simpl; try done;
    repeat apply WriteAll_is_Some; done.
Qed.

Lemma run_persisted s s' err : ran s s' err → persisted s s'.
Proof.
  apply run_respects.
  - by intros s0 q.
  - intros s1 s2 s3 H12 H23 q Hq. auto.
  - apply visited_persisted.
Qed.

(** Why a call with a [FileInfo] returned nil. *)
Lemma walkFn_success p fileInfo s s' :
  Lstat (fs s) p = inl fileInfo →
  callback p (Info fileInfo) s = (s', None) →
  IsDir fileInfo = true ∨
  is_empty (rgx (Base p)) = true ∨
  ∃ data, source (fs s) p data ∧ p ∈ matches s'.
Proof.
  intros Hl Hcall. simpl in Hcall.
  destruct (IsDir fileInfo) eqn:Hdir; [by left|]. right.
  destruct (Lstat_regular _ _ _ Hl Hdir) as (Hbase & data & access & Hnode).
  rewrite Hbase in Hcall.
  destruct (is_empty (rgx (Base p))) eqn:Hm; [by left|]. right. simpl in Hcall.
  destruct (Open (fs s) p) as [bytes|oerr] eqn:Hopen; [|done].
  destruct (Open_regular _ _ _ _ _ Hnode Hopen) as [-> ->].
  exists data. split; [done|].
  assert (p ∈ matches s ++ [p]) as Hin by (apply elem_of_app; right; by left).
  destruct (negb (bool_decide (Ext p = ".gz")) && negb (bool_decide (Ext p = ".br"))).
  - destruct (Create (fs s) (p +:+ ".gz")); [|done].
    destruct (Create _ (p +:+ ".br")); [|done].
    by injection Hcall as <-.
  - by injection Hcall as <-.
Qed.

Lemma callback_settled t p fileInfo :
  Lstat (fs t) p = inl fileInfo → settled (fs t) p →
  ∃ ms, callback p (Info fileInfo) t = (mkState (fs t) ms, None).
Proof.
  intros Hl Hset. simpl.
  destruct (IsDir fileInfo) eqn:Hdir; simpl.
  { exists (matches t). by destruct t. }
  destruct (Lstat_regular _ _ _ Hl Hdir) as (Hbase & data & access & Hnode).
  rewrite Hbase.
  destruct (is_empty (rgx (Base p))) eqn:Hm; simpl.
  { exists (matches t). by destruct t. }
  destruct (Hset data access Hnode Hm) as [-> Hsib].
  unfold Open. rewrite Hnode.
  exists (matches t ++ [p]).
  destruct (decide (plain p)) as [Hplain|Hnot].
  - destruct Hplain as [Hgz Hbr].
    rewrite (bool_decide_eq_false_2 _ Hgz), (bool_decide_eq_false_2 _ Hbr). simpl.
    destruct (Hsib (conj Hgz Hbr)) as [Hsgz Hsbr].
    unfold Create, WriteAll. rewrite Hsgz.
    rewrite insert_insert_eq, (insert_id _ _ _ Hsgz), Hsbr.
    by rewrite insert_insert_eq, (insert_id _ _ _ Hsbr).
  - destruct (decide (Ext p = ".gz")) as [Hgz|Hgz].
    { by rewrite (bool_decide_eq_true_2 _ Hgz). }
    destruct (decide (Ext p = ".br")) as [Hbr|Hbr].
    { rewrite (bool_decide_eq_true_2 _ Hbr). by rewrite andb_false_r. }
    by destruct Hnot.
Qed.

Lemma harmless_settled disk q : harmless disk q → settled disk q.
Proof.
  intros [Hnone|(d & Hq & Hnp)] data access Hnode Hm.
  - by rewrite Hnone in Hnode.
  - rewrite Hq in Hnode. injection Hnode as <- <-. done.
Qed.

Lemma harmless_not_directory disk q fileInfo :
  harmless disk q → Lstat disk q = inl fileInfo → IsDir fileInfo = false.
Proof.
  unfold Lstat. intros [Hnone|(d & Hq & _)].
  - by rewrite Hnone.
  - rewrite Hq. by intros [= <-].
Qed.

Lemma absent_harmless s final q :
  fs s !! q = None → accounted s final → compressed final →
  harmless (fs final) q.
Proof.
  intros Hnone (added & Hms & Hacc) Hc.
  destruct (Hacc q) as [Heq|(p & Hin & Hplain & Hq)].
  { left. by rewrite Heq. }
  assert (p ∈ matches final) as Hp by (rewrite Hms; apply elem_of_app; by right).
  destruct (Hc p Hp Hplain) as (data & _ & Hgz & Hbr).
  right. destruct Hq as [-> | ->].
  - exists (gzipBest data). split; [done|]. intros [Hne _]. by rewrite Ext_gz in Hne.
  - exists (brotliDefault data). split; [done|]. intros [_ Hne]. by rewrite Ext_br in Hne.
Qed.

(** Once the walk has visited a path and gone on to its end, the path is
    settled on the disk the walk leaves. *)
Lemma visit_settled p fileInfo s s1 final :
  Lstat (fs s) p = inl fileInfo →
  callback p (Info fileInfo) s = (s1, None) →
  ran s1 final None → compressed final →
  settled (fs final) p.
Proof.
  intros Hl Hcall Hrest Hc data access Hnode Hm.
  assert (ran s final None) as Hrun.
  { eapply (run_step _ _ _ _ (Info fileInfo)); [exact Hl|exact Hcall|exact Hrest]. }
  pose proof (run_held _ _ _ Hrun) as Hheld.
  destruct (walkFn_success _ _ _ _ Hl Hcall) as [Hdir|[Hun|(d & [Hsrc _] & Hin)]].
  - unfold Lstat in Hl. destruct (fs s !! p) as [[d a|a]|] eqn:Hs; try done.
    + injection Hl as <-. done.
    + apply (Hheld p (Directory a) I) in Hs. by rewrite Hs in Hnode.
  - by rewrite Hun in Hm.
  - assert (access = true) as ->.
    { destruct access; [done|].
      apply (Hheld p (RegularFile data false)) in Hnode; [|done].
      by rewrite Hnode in Hsrc. }
    split; [done|]. intros Hplain.
    destruct (run_accounted _ _ _ Hrest) as (added & Hms & _).
    assert (p ∈ matches final) as Hp by (rewrite Hms; apply elem_of_app; by left).
    destruct (Hc p Hp Hplain) as (data' & Hnode' & Hgz & Hbr).
    rewrite Hnode in Hnode'. by injection Hnode' as <-.
Qed.

(** The walk never returns [SkipDir]. *)
Lemma walk_not_SkipDir l path info s s' :
  Lstat (fs s) path = inl info →
  walk fs callback path info l s ≠ (s', Some SkipDir).
Proof.
  intros Hl Hw. apply (walk_run _ _ _ _ _ _ _ _ Hl) in Hw.
  apply run_error_origin in Hw as (s1 & p & _ & Hv).
  by apply visited_not_SkipDir in Hv.
Qed.

(** Visiting a settled path again, through [walk]. *)
Lemma walk_harmless l t path info :
  Lstat (fs t) path = inl info → harmless (fs t) path →
  ∃ ms, walk fs callback path info l t = (mkState (fs t) ms, None).
Proof.
  intros Hl Hh. destruct l as [name entries].
  unfold walk. rewrite (harmless_not_directory _ _ _ Hh Hl). simpl.
  apply callback_settled; [done|]. by apply harmless_settled.
Qed.

Lemma walkNames_reruns path es es2 :
  Forall reruns es →
  ∀ final,
  interleave
    (λ e e2, entryName e = entryName e2 ∧
             grown (harmless (fs final)) (Join path (entryName e)) e e2)
    (λ x, harmless (fs final) (Join path (entryName x))) es es2 →
  ∀ s s1 t,
    walkNames fs callback (walk fs callback) path es s = (s1, None) →
    ran s1 final None → compressed final → fs t = fs final →
    ∃ ms, walkNames fs callback (walk fs callback) path es2 t
          = (mkState (fs t) ms, None).
Proof.
  intros Hes final Hil.
  induction Hil as [|x y xs ys [Hname Hgrown] Hil IH|y xs ys Hextra Hil IH];
    intros s s1 t Hwalk Hrest Hc Ht.
  - exists (matches t). by destruct t.
  - apply Forall_cons in Hes as [Hx Hxs]. specialize (IH Hxs).
    simpl in Hwalk. simpl. rewrite <- Hname.
    set (filename := Join path (entryName x)) in *.
    destruct (Lstat (fs s) filename) as [fileInfo|lerr] eqn:Hl.
    + destruct (walk fs callback filename fileInfo x s) as [sa [erra|]] eqn:Hwx.
      { destruct (negb (IsDir fileInfo) || bool_decide (erra ≠ SkipDir)) eqn:Hcond;
          [done|].
        apply orb_false_iff in Hcond as [_ Hcond].
        apply bool_decide_eq_false in Hcond. apply dec_stable in Hcond as ->.
        by apply walk_not_SkipDir in Hwx. }
      assert (ran sa final None) as Hsa.
      { eapply run_trans; [|exact Hrest].
        eapply walkNames_run; [|exact Hwalk].
        apply Forall_forall. intros e _. apply walk_run. }
      assert (ran s final None) as Hs.
      { eapply run_trans; [|exact Hsa]. by eapply walk_run. }
      destruct (Lstat (fs t) filename) as [info2|lerr2] eqn:Hl2.
      2: { exfalso. unfold Lstat in Hl, Hl2.
           destruct (run_persisted _ _ _ Hs filename) as [n Hn].
           - destruct (fs s !! filename); [by eexists|done].
           - rewrite Ht, Hn in Hl2. by destruct n. }
      destruct (Hx filename fileInfo s sa final t info2 y Hgrown Hwx Hl Hsa Hc Ht Hl2)
        as (ms & ->).
      by apply (IH sa s1 (mkState (fs t) ms)).
    + simpl in Hwalk.
      assert (ran s final None) as Hs.
      { eapply run_trans; [|exact Hrest].
        eapply walkNames_run; [|exact Hwalk].
        apply Forall_forall. intros e _. apply walk_run. }
      destruct (Lstat (fs t) filename) as [info2|lerr2] eqn:Hl2.
      * assert (harmless (fs t) filename) as Hh.
        { rewrite Ht. eapply absent_harmless; [|by eapply run_accounted|done].
          unfold Lstat in Hl. by destruct (fs s !! filename) as [[]|]. }
        destruct (walk_harmless y t filename info2 Hl2 Hh) as (ms & ->).
        by apply (IH s s1 (mkState (fs t) ms)).
      * simpl. by apply (IH s s1 t).
  - specialize (IH Hes). simpl.
    set (filename := Join path (entryName y)) in *.
    destruct (Lstat (fs t) filename) as [info2|lerr2] eqn:Hl2.
    + assert (harmless (fs t) filename) as Hh by (by rewrite Ht).
      destruct (walk_harmless y t filename info2 Hl2 Hh) as (ms & ->).
      by apply (IH s s1 (mkState (fs t) ms)).
    + simpl. by apply (IH s s1 t).
Qed.

Lemma callback_directory p fileInfo s :
  IsDir fileInfo = true → callback p (Info fileInfo) s = (s, None).
Proof. intros Hdir. simpl. by rewrite Hdir. Qed.

Lemma walk_reruns l : reruns l.
Proof.
  induction l as [name entries IH] using listing_forall_ind.
  intros path info s s1 final t info2 l2 Hgrown Hwalk Hl Hrest Hc Ht Hl2.
  inversion Hgrown as [path' name' name2 entries' entries2 Hil]; subst.
  assert (ran s final None) as Hs.
  { eapply run_trans; [|exact Hrest]. by eapply walk_run. }
  pose proof (run_held _ _ _ Hs) as Hheld.
  rewrite walk_unfold in Hwalk. rewrite walk_unfold.
  destruct (IsDir info) eqn:Hdir; cbn [negb] in Hwalk.
  - (* a directory: the same node on both disks *)
    assert (∃ access, fs s !! path = Some (Directory access)) as [access Hnode].
    { unfold Lstat in Hl. destruct (fs s !! path) as [[d a|a]|]; try done.
      - injection Hl as <-. done.
      - by exists a. }
    assert (fs t !! path = Some (Directory access)) as Hnode2.
    { rewrite Ht. by apply (Hheld path (Directory access) I). }
    assert (IsDir info2 = true) as Hdir2.
    { unfold Lstat in Hl2. rewrite Hnode2 in Hl2. by injection Hl2 as <-. }
    rewrite Hdir2. cbn [negb]. unfold readDirNames in *.
    rewrite Hnode in Hwalk. rewrite Hnode2.
    destruct access.
    + rewrite (callback_directory _ _ _ Hdir) in Hwalk.
      rewrite (callback_directory _ _ _ Hdir2).
      by eapply walkNames_reruns.
    + exists (matches t). by destruct t.
  - (* a isRegular file: only the callback runs *)
    assert (IsDir info2 = false) as Hdir2.
    { unfold Lstat in Hl, Hl2.
      destruct (fs t !! path) as [[d2 a2|a2]|] eqn:Hnode2; try done.
      - by injection Hl2 as <-.
      - rewrite Ht in Hnode2. apply (Hheld path (Directory a2) I) in Hnode2.
        rewrite Hnode2 in Hl. injection Hl as <-. done. }
    rewrite Hdir2. cbn [negb].
    apply callback_settled; [done|].
    rewrite Ht. exact (visit_settled _ _ _ _ _ Hl Hwalk Hrest Hc).
Qed.

(** *** What the walk reaches *)

Lemma reached_held s s' path l q :
  held s s' → reached (fs s) path l q → reached (fs s') path l q.
Proof.
  intros Hheld. induction 1 as [|path name entries e q Hdir Hin _ IH].
  - constructor.
  - eapply reached_below; [|exact Hin|exact IH].
    by apply (Hheld path (Directory true) I).
Qed.

Lemma regular_kept s s' q :
  held s s' → persisted s s' → isRegular (fs s) q → isRegular (fs s') q.
Proof.
  intros Hheld Hpers (data & access & Hq).
  destruct (Hpers q) as [n Hn]; [by eexists|].
  destruct n as [data' access'|access']; [by exists data', access'|].
  apply (Hheld q (Directory access') I) in Hn. by rewrite Hq in Hn.
Qed.

Lemma matches_kept s s' err q :
  ran s s' err → q ∈ matches s → q ∈ matches s'.
Proof.
  intros (added & -> & _)%run_accounted Hin. apply elem_of_app. by left.
Qed.

Lemma walkNames_covers path es :
  Forall covers es →
  ∀ s s' e q,
    walkNames fs callback (walk fs callback) path es s = (s', None) →
    e ∈ es → reached (fs s) (Join path (entryName e)) e q →
    isRegular (fs s) q → is_empty (rgx (Base q)) = false →
    q ∈ matches s'.
Proof.
  induction 1 as [|e0 es He0 Hes IH]; intros s s' e q Hwalk Hin Hreach Hreg Hm.
  { by apply elem_of_nil in Hin. }
  simpl in Hwalk.
  set (filename := Join path (entryName e0)) in *.
  destruct (Lstat (fs s) filename) as [fileInfo|lerr] eqn:Hl.
  - destruct (walk fs callback filename fileInfo e0 s) as [sa [erra|]] eqn:Hw0.
    { destruct (negb (IsDir fileInfo) || bool_decide (erra ≠ SkipDir)) eqn:Hcond;
        [done|].
      apply orb_false_iff in Hcond as [_ Hcond].
      apply bool_decide_eq_false in Hcond. apply dec_stable in Hcond as ->.
      by apply walk_not_SkipDir in Hw0. }
    assert (ran s sa None) as Hrun0 by (by eapply walk_run).
    assert (ran sa s' None) as Hrest.
    { eapply walkNames_run; [|exact Hwalk].
      apply Forall_forall. intros e1 _. apply walk_run. }
    apply elem_of_cons in Hin as [->|Hin].
    + eapply matches_kept; [exact Hrest|]. by eapply He0.
    + eapply IH; [exact Hwalk|exact Hin| | |done].
      * eapply reached_held; [|exact Hreach]. by eapply run_held.
      * eapply regular_kept; [| |exact Hreg];
          [by eapply run_held|by eapply run_persisted].
  - simpl in Hwalk.
    apply elem_of_cons in Hin as [->|Hin]; [|by eapply IH].
    exfalso. unfold Lstat in Hl.
    destruct (fs s !! filename) as [[d a|a]|] eqn:Hnode; try done.
    inversion Hreach as [|path' name entries e1 q' Hdir]; subst.
    + destruct Hreg as (d & a & Hq). fold filename in Hq. by rewrite Hnode in Hq.
    + fold filename in Hdir. by rewrite Hnode in Hdir.
Qed.

Lemma walk_covers l : covers l.
Proof.
  induction l as [name entries IH] using listing_forall_ind.
  intros path info s s' q Hwalk Hl Hreach Hreg Hm.
  rewrite walk_unfold in Hwalk.
  inversion Hreach as [|path' name' entries' e q' Hdir Hin Hbelow]; subst.
  - (* the path itself *)
    destruct Hreg as (data & access & Hq).
    assert (IsDir info = false) as Hnodir.
    { unfold Lstat in Hl. rewrite Hq in Hl. by injection Hl as <-. }
    rewrite Hnodir in Hwalk. cbn [negb] in Hwalk.
    destruct (walkFn_success _ _ _ _ Hl Hwalk) as [Hd|[Hun|(d & _ & Hin)]].
    + by rewrite Hnodir in Hd.
    + by rewrite Hun in Hm.
    + done.
  - (* below a directory that can be read *)
    assert (IsDir info = true) as Hisdir.
    { unfold Lstat in Hl. rewrite Hdir in Hl. by injection Hl as <-. }
    rewrite Hisdir in Hwalk. cbn [negb] in Hwalk.
    unfold readDirNames in Hwalk. rewrite Hdir in Hwalk.
    rewrite (callback_directory _ _ _ Hisdir) in Hwalk.
    by eapply walkNames_covers.
Qed.

(** *** From the walk to [CompressFiles] *)

Abbreviation compressFiles := (CompressFiles gzipBest brotliDefault rgx).

Lemma CompressFiles_run disk tree dir disk' ms err :
  compressFiles disk tree dir = (disk', ms, err) →
  (disk' = disk ∧ ms = [] ∧ is_Some err) ∨
  ran (mkState disk []) (mkState disk' ms) err.
Proof.
  unfold CompressFiles.
  destruct (Lstat disk (Clean dir)) as [fileInfo|lerr].
  2: { intros [= <- <- <-]. left. eauto. }
  destruct (negb (IsDir fileInfo)).
  { intros [= <- <- <-]. left. eauto. }
  destruct (Walk fs callback dir tree (mkState disk [])) as [s werr] eqn:Hw.
  intros [= <- <- <-]. right. apply Walk_run in Hw. by destruct s.
Qed.

(** C3, as the code has it.  The callback returns nil for an entry whose
    visit failed, so the walk goes on; [CompressFiles] returns an error only
    when the root cannot be examined or is no directory, when a file that
    the pattern matches cannot be opened, or when one of the two artifacts of
    a matched file cannot be created. *)
Theorem visit_errors_are_ignored :
  (∀ p fileInfo err s, callback p (Failed fileInfo err) s = (s, None)) ∧
  (∀ disk tree dir disk' ms err,
     compressFiles disk tree dir = (disk', ms, Some err) →
     Lstat disk (Clean dir) = inr err ∨
     (err = ErrPathIsNotDirectory ∧
      ∃ fileInfo, Lstat disk (Clean dir) = inl fileInfo ∧ IsDir fileInfo = false) ∨
     ∃ p, is_empty (rgx (Base p)) = false ∧
       ((∃ data, disk !! p = Some (RegularFile data false) ∧ err = ErrPermission) ∨
        (∃ data, disk !! p = Some (RegularFile data true) ∧ plain p ∧
           (Create disk (p +:+ ".gz") = inr err ∨
            Create disk (p +:+ ".br") = inr err)))).
Proof.
  split; [done|].
  intros disk tree dir disk' ms err. unfold CompressFiles.
  destruct (Lstat disk (Clean dir)) as [fileInfo|lerr] eqn:Hroot.
  2: { intros [= <- <- <-]. by left. }
  destruct (negb (IsDir fileInfo)) eqn:Hdir.
  { intros [= <- <- <-]. right. left. split; [done|].
    exists fileInfo. split; [done|]. by apply negb_true_iff. }
  destruct (Walk fs callback dir tree (mkState disk [])) as [s' werr] eqn:Hw.
  intros [= <- <- ->]. right. right.
  apply Walk_run, run_error_origin in Hw as (s1 & p & Hrun & Hv).
  pose proof (run_held _ _ _ Hrun) as Hheld.
  pose proof (run_framed _ _ _ Hrun) as Hframed.
  exists p.
  inversion Hv as [|data Hnode Hm|
                   |data e [Hnode Hm] Hplain Hc
                   |data e [Hnode Hm] Hplain Hw1 Hc|]; subst.
  - split; [done|]. left. exists data. split; [|done].
    by apply (Hheld p (RegularFile data false)).
  - split; [done|]. right. exists data.
    rewrite (Hframed p Hplain) in Hnode. split_and!; [done..|]. left.
    by apply (Create_inr_held _ _ _ _ Hheld).
  - split; [done|]. right. exists data.
    rewrite (Hframed p Hplain) in Hnode. split_and!; [done..|]. right.
    apply (Create_inr_held _ _ _ _ Hheld).
    apply Create_inr in Hc as (n & Hn & Hlook & Hsame). apply Hsame.
    unfold WriteAll in Hlook. rewrite lookup_insert_ne in Hlook; [done|].
    apply gz_ne_br.
Qed.

(** The walk's entry into [CompressFiles]: what its success says about
    the files it reached. *)
Lemma CompressFiles_covers disk tree dir disk' ms p :
  compressFiles disk tree dir = (disk', ms, None) →
  reached disk dir tree p → isRegular disk p →
  is_empty (rgx (Base p)) = false →
  p ∈ ms.
Proof.
  unfold CompressFiles. intros Hrun Hreach Hreg Hm.
  destruct (Lstat disk (Clean dir)) as [rootInfo|lerr]; [|done].
  destruct (negb (IsDir rootInfo)); [done|].
  destruct (Walk fs callback dir tree (mkState disk [])) as [s1 err1] eqn:Hwalk.
  injection Hrun as <- <- ->.
  unfold Walk in Hwalk. cbn [fs] in Hwalk.
  destruct (Lstat disk dir) as [info|lerr] eqn:Hl.
  - destruct (walk fs callback dir info tree (mkState disk [])) as [sa erra] eqn:Hw.
    destruct (decide (erra = Some SkipDir)) as [->|Hne].
    { by apply walk_not_SkipDir in Hw. }
    injection Hwalk as <- ->.
    by eapply (walk_covers tree dir info (mkState disk [])).
  - exfalso. unfold Lstat in Hl.
    destruct (disk !! dir) as [[d a|a]|] eqn:Hnode; try done.
    inversion Hreach as [|path' name entries e q' Hdir]; subst.
    + destruct Hreg as (d & a & Hq). by rewrite Hnode in Hq.
    + by rewrite Hnode in Hdir.
Qed.


(** C9, as the code has it.  Whatever the walk returns, every path whose
    extension is neither [.gz] nor [.br] names after the walk what it named
    before, so no file that the walk compresses is mutated; and every path
    whose content has changed is the [.gz] or the [.br] sibling of a file in
    the returned list. *)
Theorem walk_writes_only_siblings disk tree dir disk' ms err :
  compressFiles disk tree dir = (disk', ms, err) →
  (∀ q, plain q → disk' !! q = disk !! q) ∧
  (∀ q, disk' !! q = disk !! q ∨
        ∃ p, p ∈ ms ∧ plain p ∧ (q = p +:+ ".gz" ∨ q = p +:+ ".br")).
Proof.
  intros Hrun.
  apply CompressFiles_run in Hrun as [(-> & _ & _)|Hrun].
  { split; [done|]. by left. }
  split.
  - apply (run_framed _ _ _ Hrun).
  - destruct (run_accounted _ _ _ Hrun) as (added & Hms & Hacc).
    simpl in *. subst ms. apply Hacc.
Qed.


End Facts.
End CompressFacts.

(** ** The walker on the example directories *)

Module CompressExamples.
Import Strings Filepath os Walk Compress WalkFacts CompressFacts World.

(** The first run over the build directory: both visit errors (the entry
    that is gone, the directory that cannot be read) are passed over, and
    the files matched elsewhere are returned with a nil error. *)
Lemma visit_errors_return_success :
  Lstat buildDisk "build/gone.js" = inr ErrNotExist ∧
  readDirNames buildDisk "build/private"
    (Listing "private" [Listing "secret.js" []]) = inr ErrPermission ∧
  webserverPattern "secret.js" = "js" ∧
  CompressWebserverFiles gz br buildDisk buildTree "build"
    = (builtDisk, builtMatches, None).
Proof. split_and!; vm_compute; reflexivity. Qed.


Lemma builtTree_grown :
  grown (λ q, buildDisk !! q = None) "build" buildTree builtTree.
Proof.
  apply grown_listing.
  apply interleave_keep; [split; [reflexivity|apply grown_refl]|].
  apply interleave_extra; [reflexivity|].
  apply interleave_keep; [split; [reflexivity|apply grown_refl]|].
  apply interleave_keep.
  { split; [reflexivity|]. apply grown_listing.
    apply interleave_keep; [split; [reflexivity|apply grown_refl]|].
    apply interleave_extra; [reflexivity|].
    apply interleave_extra; [reflexivity|].
    apply interleave_nil. }
  apply interleave_keep; [split; [reflexivity|apply grown_refl]|].
  apply interleave_keep; [split; [reflexivity|apply grown_refl]|].
  apply interleave_nil.
Qed.


(** A walk that does fail: the script may not be opened. *)
Lemma visit_errors_witness :
  CompressWebserverFiles gz br lockedDisk buildTree "build"
    = (lockedDisk, [], Some ErrPermission) ∧
  ∃ p, is_empty (webserverPattern (Base p)) = false ∧
    ((∃ data, lockedDisk !! p = Some (RegularFile data false) ∧
              ErrPermission = ErrPermission) ∨
     (∃ data, lockedDisk !! p = Some (RegularFile data true) ∧ plain p ∧
        (Create lockedDisk (p +:+ ".gz") = inr ErrPermission ∨
         Create lockedDisk (p +:+ ".br") = inr ErrPermission))).
Proof.
  assert (CompressWebserverFiles gz br lockedDisk buildTree "build"
          = (lockedDisk, [], Some ErrPermission)) as Hrun
    by (vm_compute; reflexivity).
  split; [exact Hrun|].
  destruct (proj2 (visit_errors_are_ignored gz br webserverPattern)
              lockedDisk buildTree "build" lockedDisk [] ErrPermission Hrun)
    as [Hroot|[[Hnotdir _]|Hfile]].
  - vm_compute in Hroot. discriminate Hroot.
  - discriminate Hnotdir.
  - exact Hfile.
Defined.



(** An archive that the pattern matches, next to the text it is named
    after, loses its bytes to the compressed text. *)
Lemma matched_archive_is_overwritten :
  distDisk !! "dist/a.txt.gz" = Some (RegularFile (bytes "ARCHIVE") true) ∧
  (CompressFiles gz br anyName distDisk distTree "dist").1.2
    = ["dist/a.txt"; "dist/a.txt.gz"] ∧
  (CompressFiles gz br anyName distDisk distTree "dist").2 = None ∧
  (CompressFiles gz br anyName distDisk distTree "dist").1.1 !! "dist/a.txt.gz"
    = Some (RegularFile (gz (bytes "text")) true) ∧
  bytes "ARCHIVE" ≠ gz (bytes "text").
Proof. split_and!; [vm_compute; reflexivity..|done]. Qed.

(** On the build directory nothing but siblings of the two matched files
    has changed. *)
Lemma walk_writes_only_siblings_witness :
  CompressWebserverFiles gz br buildDisk buildTree "build"
    = (builtDisk, builtMatches, None) ∧
  (∀ q, plain q → builtDisk !! q = buildDisk !! q) ∧
  (∀ q, builtDisk !! q = buildDisk !! q ∨
        ∃ p, p ∈ builtMatches ∧ plain p ∧
             (q = p +:+ ".gz" ∨ q = p +:+ ".br")).
Proof.
  assert (CompressWebserverFiles gz br buildDisk buildTree "build"
          = (builtDisk, builtMatches, None)) as Hrun
    by (vm_compute; reflexivity).
  split; [exact Hrun|].
  exact (walk_writes_only_siblings gz br webserverPattern
           buildDisk buildTree "build" builtDisk builtMatches None Hrun).
Defined.

End CompressExamples.

(** ** The earlier revision on the same examples *)

Module EarlierExamples.
Import Strings Filepath header http os Walk World.

(** Without preferences the earlier handler tries nothing. *)
Lemma earlier_no_preferences_not_found root urlPath :
  Earlier.ServeHTTP root (mkRequest urlPath []) = Returns NotFound.
Proof. reflexivity. Qed.

(** It serves the identity variant at quality zero as the current one does. *)
Example earlier_identity_at_quality_zero :
  Earlier.ServeHTTP site (mkRequest "/notes" [mkSpec "identity" (q 0 1)])
  = Returns (ServeContent (HeaderSet ∅ "Content-Encoding" "") "/notes" 30
               (regular "plain words" 30 "notes")).
Proof. vm_compute. reflexivity. Qed.

(** Its walk function leaves an existing gzip sibling alone and replaces
    an existing brotli sibling. *)
Example earlier_walk_replaces_brotli_sibling :
  let info := mkFileInfo "app.js" 14 0 false in
  let s' := (Earlier.walkFn gz brFor Compress.webserverPattern "build/app.js"
               (Info info) (Compress.mkState staleDisk [])).1 in
  Lstat staleDisk "build/app.js" = inl info ∧
  staleDisk !! "build/app.js.br" = Some (RegularFile (bytes "stale too") true) ∧
  Compress.fs s' !! "build/app.js.gz" = Some (RegularFile (bytes "stale") true) ∧
  Compress.fs s' !! "build/app.js.br"
    = Some (RegularFile (br (bytes "console.log(1)")) true).
Proof. split_and!; vm_compute; reflexivity. Qed.

(** On a file without siblings it writes the gzip sibling and returns. *)
Example earlier_walk_stops_after_gzip :
  let info := mkFileInfo "site.css" 6 0 false in
  let s' := (Earlier.walkFn gz brFor Compress.webserverPattern "build/css/site.css"
               (Info info) (Compress.mkState buildDisk [])).1 in
  Lstat buildDisk "build/css/site.css" = inl info ∧
  Compress.fs s' !! "build/css/site.css.gz"
    = Some (RegularFile (gz (bytes "body{}")) true) ∧
  Compress.fs s' !! "build/css/site.css.br" = None.
Proof. split_and!; vm_compute; reflexivity. Qed.

End EarlierExamples.

(** * Further properties of the file handler *)

Module HandlerExtras.
Import Strings Filepath header http Handler HandlerFacts HandlerMore.

Section Extras.
Variable TypeByExtension : string → string.
Variable MatchFile : string → string.
Variable DetectContentType : list Byte.byte → string.
Variable rootDir : Dir.

Abbreviation determine := (determineContentType TypeByExtension MatchFile DetectContentType).
Abbreviation try := (tryServingContent TypeByExtension MatchFile DetectContentType rootDir).
Abbreviation serve := (ServeHTTP TypeByExtension MatchFile DetectContentType rootDir).
Abbreviation regularAt := (Handler.regularAt rootDir).

Lemma is_empty_false (s : string) : s ≠ "" → is_empty s = false.
Proof. by destruct s. Qed.

Lemma is_empty_true (s : string) : is_empty s = true → s = "".
Proof. by destruct s. Qed.

(** A resolution either finds a non-empty type in the cache, or stores the
    type it returns. *)
Lemma determine_cases cache p file contentType cache' :
  determine cache p file = Returns (contentType, cache') →
  (cache' = cache ∧ cache !! p = Some contentType ∧ contentType ≠ "") ∨
  cache' = <[p := contentType]> cache.
Proof.
  unfold determineContentType, getCachedContentType, cacheContentType.
  assert ((if negb (is_empty (TypeByExtension (Ext p)))
           then Returns (TypeByExtension (Ext p),
                         <[p := TypeByExtension (Ext p)]> cache)
           else if negb (is_empty (MatchFile p))
           then Returns (MatchFile p, <[p := MatchFile p]> cache)
           else match sniffSize (Stat file) with
                | Returns size =>
                    if (size <? 0)%Z then Panics
                    else Returns (DetectContentType (ReadInto file (Z.to_nat size)),
                                  <[p := DetectContentType (ReadInto file (Z.to_nat size))]> cache)
                | Panics => Panics
                end) = Returns (contentType, cache') →
          cache' = <[p := contentType]> cache) as Hlater.
  { destruct (is_empty (TypeByExtension (Ext p))); simpl; [|by intros [= <- <-]].
    destruct (is_empty (MatchFile p)); simpl; [|by intros [= <- <-]].
    destruct (sniffSize (Stat file)) as [size|]; [|done].
    destruct (size <? 0)%Z; [done|]. by intros [= <- <-]. }
  destruct (cache !! p) as [val|] eqn:Hc; simpl.
  - destruct (is_empty val) eqn:Hval; simpl.
    + intros Hres. right. by apply Hlater.
    + intros [= <- <-]. left. split_and!; [done..|]. by intros ->.
  - intros Hres. right. by apply Hlater.
Qed.

(** X1.  Whatever type a resolution returns is the type stored for the
    path afterwards, and no other path's entry changes. *)
Theorem resolution_writes_through cache p file contentType cache' :
  determineContentType TypeByExtension MatchFile DetectContentType cache p file
    = Returns (contentType, cache') →
  cache' !! p = Some contentType ∧
  ∀ p', p' ≠ p → cache' !! p' = cache !! p'.
Proof.
  intros [(-> & Hc & _)| ->]%determine_cases; [done|].
  split; [apply lookup_insert_eq|].
  intros p' Hne. by apply lookup_insert_ne.
Qed.

(** X2.  Once a path has resolved to a non-empty type, every later
    resolution of that path returns the same type from the cache, whatever
    handle it is given (even one whose [Stat] fails), and leaves the cache
    as it is. *)
Theorem resolution_is_cached cache p file contentType cache' :
  determineContentType TypeByExtension MatchFile DetectContentType cache p file
    = Returns (contentType, cache') →
  contentType ≠ "" →
  ∀ file',
    determineContentType TypeByExtension MatchFile DetectContentType cache' p file'
      = Returns (contentType, cache').
Proof.
  intros Hres Hne file'.
  assert (cache' !! p = Some contentType) as Hstored.
  { apply determine_cases in Hres as [(-> & Hc & _)| ->]; [done|].
    apply lookup_insert_eq. }
  unfold determineContentType, getCachedContentType. rewrite Hstored.
  by rewrite (is_empty_false _ Hne).
Qed.

(** X3.  When nothing before the sniffing resolves the path and [Stat]
    succeeds, the sniffer is handed exactly 512 bytes: the first bytes of the
    file and, for a file shorter than that, zero bytes up to 512. *)
Theorem sniffing_buffer_has_512_bytes cache p file fileInfo :
  unresolved TypeByExtension MatchFile cache p →
  Stat file = (fileInfo, None) →
  ∃ buffer,
    length buffer = 512 ∧
    take (length (contents file)) buffer = take 512 (contents file) ∧
    (∀ i b, length (contents file) ≤ i → buffer !! i = Some b → b = Byte.x00) ∧
    determine cache p file =
      Returns (DetectContentType buffer, <[p := DetectContentType buffer]> cache).
Proof.
  intros (Hcache & Hext & Hmagic) Hstat.
  exists (ReadInto file 512). unfold ReadInto.
  set (got := take 512 (contents file)).
  assert (length got ≤ 512) as Hgot by (unfold got; rewrite length_take; lia).
  split_and!.
  - rewrite length_app, length_replicate. lia.
  - destruct (decide (length (contents file) ≤ 512)) as [Hshort|Hlong].
    + unfold got. rewrite (take_ge (contents file) 512) by done.
      by rewrite take_app_length.
    + assert (length got = 512) as Hfull by (unfold got; rewrite length_take; lia).
      rewrite take_ge by (rewrite length_app, length_replicate; lia).
      rewrite Hfull. simpl. apply app_nil_r.
  - intros i b Hi Hb.
    assert (length got ≤ i) as Hgi.
    { unfold got. rewrite length_take. lia. }
    rewrite lookup_app_r in Hb by done.
    by apply lookup_replicate in Hb as [-> _].
  - unfold determineContentType, getCachedContentType, cacheContentType.
    destruct Hcache as [Hc|Hc]; rewrite Hc; simpl;
      rewrite Hext, Hmagic, Hstat; simpl; done.
Qed.

(** A handle that answers [Stat] never makes an attempt crash. *)
Lemma try_answers r cache enc ext :
  answering rootDir → try r cache enc ext ≠ Crashes.
Proof.
  intros Hans. unfold tryServingContent, Open, FromSlash.
  destruct (rootDir !! _) as [file|] eqn:Hopen; [|done].
  specialize (Hans _ _ Hopen).
  destruct (Stat file) as [[fi|] [e|]] eqn:Hstat; try done.
  destruct (IsDir fi); [done|].
  destruct (determine_after_stat TypeByExtension MatchFile DetectContentType
              cache (originalPath (URLPath r)) file _ Hstat) as (ct & c' & ->).
  done.
Qed.

Lemma rangeSpecs_answers tr enc ext specs :
  (∀ enc ext, tr enc ext ≠ Crashes) →
  rangeSpecs tr enc ext specs ≠ Some Panics.
Proof.
  intros Htr. induction specs as [|spec rest IH]; simpl; [done|].
  destruct (eligible spec enc ext); [|done].
  specialize (Htr enc ext). by destruct (tr enc ext).
Qed.

Lemma rangeEncoders_answers tr specs cache entries :
  (∀ enc ext, tr enc ext ≠ Crashes) →
  rangeEncoders tr specs cache entries ≠ Panics.
Proof.
  intros Htr. induction entries as [|[enc ext] later IH]; simpl; [done|].
  pose proof (rangeSpecs_answers tr enc ext specs Htr) as Hin.
  pose proof (Htr enc ext) as Hne.
  destruct (rangeSpecs tr enc ext specs) as [[res|]|]; try done;
    destruct (decide (length specs = 0)); try done;
    by destruct (tr enc ext).
Qed.

(** X4.  Over a root whose handles answer [Stat], [ServeHTTP] never
    panics: every request gets a response. *)
Theorem ServeHTTP_always_responds cache r :
  answering rootDir →
  ∃ resp cache', serve cache r = Returns (resp, cache').
Proof.
  intros Hans. unfold ServeHTTP.
  pose proof (rangeEncoders_answers (try r cache) (AcceptEncoding r) cache catalog
                (λ enc ext, try_answers r cache enc ext Hans)) as Hne.
  destruct (rangeEncoders _ _ _ _) as [[resp cache']|]; [by eauto|done].
Qed.

(** X5.  A request changes the content-type cache at most at its own
    logical path, and a request that ends in not-found leaves the cache as it
    was. *)
Theorem request_touches_only_its_own_cache_entry cache r resp cache' :
  serve cache r = Returns (resp, cache') →
  (resp = NotFound → cache' = cache) ∧
  ∀ p, p ≠ originalPath (URLPath r) → cache' !! p = cache !! p.
Proof.
  intros Hserve. unfold ServeHTTP in Hserve.
  apply rangeEncoders_inv in Hserve as [[-> ->]|(enc & ext & _ & _ & Htry)].
  { done. }
  apply try_serves_inv in Htry as (file & fi & ct & _ & Hct & ->).
  split; [done|]. intros p Hne.
  apply determine_cases in Hct as [(-> & _)| ->]; [done|].
  by apply lookup_insert_ne.
Qed.

(** X6.  What is served is never a directory: it is the file that the
    root binds to the logical path plus one of the catalog suffixes, its
    [Stat] succeeded and says it is no directory, and the name and the
    modification time handed to [ServeContent] are the path of the request
    and the modification time of that file. *)
Theorem only_regular_files_are_served cache r h name modtime content cache' :
  serve cache r = Returns (ServeContent h name modtime content, cache') →
  name = URLPath r ∧
  ∃ ext fileInfo,
    ext ∈ extensions ∧
    regularAt (URLPath r) ext content fileInfo ∧
    modtime = ModTime fileInfo.
Proof.
  intros Hserve. unfold ServeHTTP in Hserve.
  apply rangeEncoders_inv in Hserve as [[? _]|(enc & ext & Hin & _ & Htry)];
    [done|].
  apply try_serves_inv in Htry as (file & fi & ct & Hreg & _ & Hresp).
  injection Hresp as -> -> -> ->. split; [done|].
  exists ext, fi. split_and!; [|done..].
  unfold catalog, encoders, extensions in *. simpl in Hin.
  repeat (apply elem_of_cons in Hin as [Hin|Hin];
          [injection Hin as -> ->; set_solver|]).
  by apply elem_of_nil in Hin.
Qed.

(** Not found means that every entry the client accepts has missed. *)
Lemma rangeEncoders_not_found tr specs cache entries cache' enc ext :
  rangeEncoders tr specs cache entries = Returns (NotFound, cache') →
  (∀ enc ext resp c, tr enc ext = Serves resp c → resp ≠ NotFound) →
  (enc, ext) ∈ entries → accepted specs enc ext = true →
  ∃ err, tr enc ext = Misses err.
Proof.
  intros Hnf Hserved Hin Hacc.
  induction entries as [|[e x] later IH]; [by apply elem_of_nil in Hin|].
  destruct (tr e x) as [resp c|err|] eqn:Htr.
  - destruct (decide (accepted specs e x = true)) as [Ha|Hna].
    + rewrite (rangeEncoders_serves _ _ _ _ _ _ _ _ Ha Htr) in Hnf.
      injection Hnf as -> _. by apply Hserved in Htr.
    + apply not_true_is_false in Hna.
      rewrite rangeEncoders_skip in Hnf by (by left).
      apply elem_of_cons in Hin as [[= -> ->]|Hin]; [congruence|by apply IH].
  - rewrite rangeEncoders_skip in Hnf by (right; by eexists).
    apply elem_of_cons in Hin as [[= -> ->]|Hin]; [by eexists|by apply IH].
  - destruct (decide (accepted specs e x = true)) as [Ha|Hna].
    + exfalso. simpl in Hnf. rewrite Htr in Hnf.
      apply orb_true_iff in Ha as [Hlen|Hex].
      * apply bool_decide_eq_true in Hlen.
        by destruct (decide (length specs = 0)).
      * assert (rangeSpecs tr e x specs = Some Panics) as Hr.
        { clear -Hex Htr. induction specs as [|spec rest IHs]; simpl in *; [done|].
          rewrite Htr. destruct (eligible spec e x); [done|]. by apply IHs. }
        rewrite Hr in Hnf. by destruct (decide (length specs = 0)).
    + apply not_true_is_false in Hna.
      rewrite rangeEncoders_skip in Hnf by (by left).
      apply elem_of_cons in Hin as [[= -> ->]|Hin]; [congruence|by apply IH].
Qed.

(** X7.  A request for a path whose uncompressed file is there as a
    regular file is never answered with not-found, whatever the client
    accepts: the identity entry is tried for every preference list. *)
Theorem existing_file_is_never_not_found cache r file fileInfo :
  regularAt (URLPath r) "" file fileInfo →
  ∀ cache', serve cache r ≠ Returns (NotFound, cache').
Proof.
  intros Hreg cache' Hnf. unfold ServeHTTP in Hnf.
  destruct (try_regular TypeByExtension MatchFile DetectContentType rootDir
              r cache "" "" file fileInfo Hreg) as (ct & c' & _ & Htry).
  destruct (rangeEncoders_not_found _ _ _ _ _ "" "" Hnf) as [err Herr].
  - intros enc ext resp c Hs.
    apply try_serves_inv in Hs as (f & fi & ct' & _ & _ & ->). done.
  - unfold catalog. simpl. set_solver.
  - apply accepted_identity.
  - by rewrite Htry in Herr.
Qed.

End Extras.
End HandlerExtras.

(** ** The further properties on the example site *)

Module HandlerExtraExamples.
Import Strings Filepath header http Handler HandlerFacts HandlerMore World.
Import HandlerExtras.

Abbreviation determineSite :=
  (determineContentType typeByExtension matchFile detectContentType).
Abbreviation serveSite :=
  (ServeHTTP typeByExtension matchFile detectContentType site).

Lemma site_answering : answering site.
Proof.
  intros name file H. unfold site in H.
  repeat (apply lookup_insert_Some in H as [[_ <-]|[_ H]]; [done|]).
  by rewrite lookup_empty in H.
Qed.

Lemma resolution_writes_through_witness :
  let cache' := <["/app.js" := "text/javascript; charset=utf-8"]> (∅ : gmap string string) in
  cache' !! "/app.js" = Some "text/javascript; charset=utf-8" ∧
  ∀ p', p' ≠ "/app.js" → cache' !! p' = (∅ : gmap string string) !! p'.
Proof.
  apply (resolution_writes_through typeByExtension matchFile detectContentType
           ∅ "/app.js" (regular "let x" 20 "app.js")
           "text/javascript; charset=utf-8").
  vm_compute. reflexivity.
Defined.

(** The second resolution does not look at the handle: one whose [Stat]
    fails gets the cached type. *)
Lemma resolution_is_cached_witness :
  let cache' := <["/notes" := "application/octet-stream"]> (∅ : gmap string string) in
  determineSite ∅ "/notes" (regular "plain words" 30 "notes")
    = Returns ("application/octet-stream", cache') ∧
  determineSite cache' "/notes" (unstattable "plain words")
    = Returns ("application/octet-stream", cache').
Proof.
  assert (determineSite ∅ "/notes" (regular "plain words" 30 "notes")
          = Returns ("application/octet-stream",
                     <["/notes" := "application/octet-stream"]> ∅)) as Hfirst
    by (vm_compute; reflexivity).
  split; [exact Hfirst|].
  apply (resolution_is_cached typeByExtension matchFile detectContentType
           ∅ "/notes" (regular "plain words" 30 "notes")
           "application/octet-stream" _ Hfirst).
  discriminate.
Defined.

Lemma sniffing_buffer_witness :
  ∃ buffer,
    length buffer = 512 ∧
    take 11 buffer = bytes "plain words" ∧
    (∀ i b, 11 ≤ i → buffer !! i = Some b → b = Byte.x00) ∧
    determineSite ∅ "/notes" (regular "plain words" 30 "notes")
      = Returns (detectContentType buffer, <["/notes" := detectContentType buffer]> ∅).
Proof.
  apply (sniffing_buffer_has_512_bytes typeByExtension matchFile detectContentType
           ∅ "/notes" (regular "plain words" 30 "notes")
           (Some (mkFileInfo "notes" 11 30 false))).
  - split_and!; [by left|reflexivity|reflexivity].
  - reflexivity.
Defined.

Lemma ServeHTTP_always_responds_witness :
  ∃ resp cache',
    serveSite ∅ (mkRequest "/img" [mkSpec "gzip" (q 1 1)]) = Returns (resp, cache').
Proof.
  apply (ServeHTTP_always_responds typeByExtension matchFile detectContentType
           site ∅ (mkRequest "/img" [mkSpec "gzip" (q 1 1)])).
  exact site_answering.
Defined.

Lemma request_touches_only_its_witness :
  (ServeContent notesHeader "/notes" 30 (regular "plain words" 30 "notes")
     = NotFound → notesCache = ∅) ∧
  ∀ p, p ≠ originalPath "/notes" → notesCache !! p = (∅ : gmap string string) !! p.
Proof.
  apply (request_touches_only_its_own_cache_entry typeByExtension matchFile
           detectContentType site ∅ (mkRequest "/notes" [])).
  vm_compute. reflexivity.
Defined.

Lemma only_regular_files_witness :
  "/notes" = URLPath (mkRequest "/notes" []) ∧
  ∃ ext fileInfo,
    ext ∈ extensions ∧
    regularAt site "/notes" ext (regular "plain words" 30 "notes") fileInfo ∧
    30%Z = ModTime fileInfo.
Proof.
  apply (only_regular_files_are_served typeByExtension matchFile
           detectContentType site ∅ (mkRequest "/notes" []) notesHeader
           "/notes" 30 (regular "plain words" 30 "notes") notesCache).
  vm_compute. reflexivity.
Defined.

(** The client accepts brotli only, the script has no brotli artifact: the
    uncompressed script is served, not a 404. *)
Lemma existing_file_witness :
  regularAt site "/app.js" "" (regular "let x" 20 "app.js")
    (mkFileInfo "app.js" 5 20 false) ∧
  serveSite ∅ (mkRequest "/app.js" [mkSpec "br" (q 1 1)]) ≠ Returns (NotFound, ∅).
Proof.
  assert (regularAt site "/app.js" "" (regular "let x" 20 "app.js")
            (mkFileInfo "app.js" 5 20 false)) as Hreg by (by repeat split).
  split; [exact Hreg|].
  exact (existing_file_is_never_not_found typeByExtension matchFile
           detectContentType site ∅ (mkRequest "/app.js" [mkSpec "br" (q 1 1)])
           _ _ Hreg ∅).
Defined.

End HandlerExtraExamples.

(** * Further properties of the walker *)

Module CompressExtras.
Import Strings Filepath os Walk Compress WalkFacts PathFacts CompressFacts CompressMore.

Section Extras.
Variable gzipBest : list Byte.byte → list Byte.byte.
Variable brotliDefault : list Byte.byte → list Byte.byte.
Variable rgx : string → string.

Abbreviation ran := (run fs (walkFn gzipBest brotliDefault rgx)).
Abbreviation visited := (Compress.visited gzipBest brotliDefault rgx).
Abbreviation compressed := (Compress.compressed gzipBest brotliDefault).

Lemma WriteAll_openable disk path bytes q :
  openable disk q → openable (WriteAll disk path bytes) q.
Proof.
  intros [data Hq]. unfold openable, WriteAll.
  destruct (decide (path = q)) as [->|Hne].
  - rewrite lookup_insert_eq. by eexists.
  - rewrite lookup_insert_ne by done. by eexists.
Qed.

Lemma visited_listed s p s' err :
  visited s p s' err → listed rgx s → listed rgx s'.
Proof.
  intros Hv Hl.
  assert (∀ disk' data,
            (∀ q, openable (fs s) q → openable disk' q) →
            source rgx (fs s) p data →
            listed rgx (mkState disk' (matches s ++ [p]))) as Hadd.
  { intros disk' data Hkeep [Hnode Hm] q Hin. simpl in *.
    apply elem_of_app in Hin as [Hin|Hin].
    - destruct (Hl q Hin) as [Ho Hq]. split; [by apply Hkeep|done].
    - apply list_elem_of_singleton in Hin as ->.
      split; [|done]. apply Hkeep. by exists data. }
  inversion Hv; subst; try done.
  - by eapply Hadd.
  - by eapply Hadd.
  - eapply Hadd; [|done]. intros q. apply WriteAll_openable.
  - eapply Hadd; [|done]. intros q Hq. by do 2 apply WriteAll_openable.
Qed.

Lemma run_listed s s' err : ran s s' err → listed rgx s → listed rgx s'.
Proof.
  apply (run_respects gzipBest brotliDefault rgx
           (λ s s', listed rgx s → listed rgx s')).
  - done.
  - auto.
  - apply visited_listed.
Qed.

Lemma listed_nil disk : listed rgx (mkState disk []).
Proof. by intros p Hin%elem_of_nil. Qed.

Lemma compressed_nil disk : compressed (mkState disk []).
Proof. by intros p Hin%elem_of_nil. Qed.

(** X8.  Every path that [CompressFiles] returns, with or without an
    error, names after the walk a regular file that can be opened and whose
    base name the pattern matches: the list holds no directory, no file that
    is gone and no file the pattern does not match. *)
Theorem returned_paths_are_matched_files disk tree dir disk' ms err :
  CompressFiles gzipBest brotliDefault rgx disk tree dir = (disk', ms, err) →
  ∀ p, p ∈ ms →
    is_empty (rgx (Base p)) = false ∧
    ∃ data, disk' !! p = Some (RegularFile data true).
Proof.
  intros [(_ & -> & _)|Hrun]%CompressFiles_run p Hin.
  { by apply elem_of_nil in Hin. }
  apply run_listed in Hrun; [|apply listed_nil].
  destruct (Hrun p Hin) as [Ho Hm]. done.
Qed.

(** X9.  Whatever [CompressFiles] returns, it has removed nothing: every
    path that named something still does, the directories are the ones that
    were there, and every regular file is still a regular file. *)
Theorem walk_removes_nothing_and_keeps_directories disk tree dir disk' ms err :
  CompressFiles gzipBest brotliDefault rgx disk tree dir = (disk', ms, err) →
  (∀ q, is_Some (disk !! q) → is_Some (disk' !! q)) ∧
  (∀ q access,
     disk' !! q = Some (Directory access) ↔ disk !! q = Some (Directory access)) ∧
  (∀ q, isRegular disk q → isRegular disk' q).
Proof.
  intros [(-> & _ & _)|Hrun]%CompressFiles_run; [done|].
  pose proof (run_persisted _ _ _ _ _ _ Hrun) as Hpers.
  pose proof (run_held _ _ _ _ _ _ Hrun) as Hheld.
  split_and!.
  - apply Hpers.
  - intros q access. apply (Hheld q (Directory access) I).
  - intros q. by apply (regular_kept (mkState disk []) (mkState disk' ms)).
Qed.


End Extras.
End CompressExtras.

(** ** Extensions and last elements of paths *)

Module PathMore.
Import Strings Filepath PathFacts.

Lemma chars_of_chars l : chars (of_chars l) = l.
Proof. apply Stdlib.Strings.String.list_ascii_of_string_of_list_ascii. Qed.

(** What [filepath.Ext] returns when it is not empty: the dot the loop
    stopped at and the bytes behind it. *)
Lemma ext_loop_inv r acc :
  ext_loop r acc = [] ∨
  ∃ k, ext_loop r acc = "."%char :: rev (take k r) ++ acc.
Proof.
  revert acc. induction r as [|c r IH]; intros acc; simpl; [by left|].
  destruct (is_slash c); [by left|].
  destruct (is_dot c) eqn:Hdot.
  - right. exists 0. apply bool_decide_eq_true in Hdot as ->. done.
  - destruct (IH (c :: acc)) as [->|[k ->]]; [by left|].
    right. exists (S k). simpl. by rewrite <- app_assoc.
Qed.

(** A path with a non-empty extension ends with the last byte of the
    extension. *)
Lemma Ext_last p e c :
  chars (Ext p) = "."%char :: e ++ [c] → ∃ l, chars p = l ++ [c].
Proof.
  unfold Ext. rewrite chars_of_chars.
  destruct (ext_loop_inv (rev (chars p)) []) as [->|[k ->]]; [done|].
  rewrite app_nil_r. intros [= He].
  destruct (rev (chars p)) as [|c0 r] eqn:Hr.
  { rewrite take_nil in He. by destruct e. }
  destruct k as [|k]; [by destruct e|].
  simpl in He. apply app_inj_tail in He as [_ ->].
  exists (rev r). rewrite <- (rev_involutive (chars p)), Hr. done.
Qed.

Lemma split_slash_last l cur c :
  c ≠ "/"%char →
  ∃ pre e, split_slash (l ++ [c]) cur = pre ++ [e ++ [c]].
Proof.
  intros Hc. revert cur. induction l as [|a l IH]; intros cur; simpl.
  - unfold is_slash. rewrite bool_decide_eq_false_2 by done.
    exists [], (rev cur). done.
  - destruct (is_slash a).
    + destruct (IH []) as (pre & e & ->). by exists (rev cur :: pre), e.
    + apply IH.
Qed.

Lemma last_snoc {A} (xs : list A) (y d : A) es :
  xs ++ [y] = d :: es → List.last es d = y.
Proof.
  destruct xs as [|x xs]; simpl.
  - by intros [= <- <-].
  - intros [= <- <-]. apply last_last.
Qed.

(** The last element of a path that does not end in a slash ends with the
    last byte of the path. *)
Lemma Base_last p l c :
  chars p = l ++ [c] → c ≠ "/"%char → ∃ e, chars (Base p) = e ++ [c].
Proof.
  intros Hp Hc. unfold Base. rewrite Hp.
  destruct (l ++ [c]) eqn:Hl; [by destruct l|]. rewrite <- Hl.
  destruct (split_slash_last l [] c Hc) as (pre & e & ->).
  rewrite filter_app, filter_cons_True, filter_nil.
  2: { apply bool_decide_spec. by destruct e. }
  destruct (filter _ pre ++ [e ++ [c]]) as [|e0 es] eqn:Hf.
  { by destruct (filter _ pre). }
  exists e. rewrite chars_of_chars. by eapply last_snoc.
Qed.

End PathMore.

(** ** The pattern of [CompressWebserverFiles] *)

Module WebserverFacts.
Import Strings Filepath os Walk Compress PathFacts PathMore.

Lemma HasSuffix_last name suffix e c :
  chars name = e ++ [c] → HasSuffix name suffix = true →
  List.last (chars suffix) c = c.
Proof.
  unfold HasSuffix. intros ->.
  destruct (chars suffix) as [|d pre _] using rev_ind; [done|].
  rewrite !rev_unit, last_last.
  intros [k Hk]%bool_decide_eq_true. by injection Hk.
Qed.

Lemma webserverPattern_inv name :
  is_empty (webserverPattern name) = false →
  ∃ suffix, suffix ∈ webserverSuffixes ∧ HasSuffix name suffix = true.
Proof.
  unfold webserverPattern.
  destruct (filter _ webserverSuffixes) as [|suffix rest] eqn:Hf; [done|].
  intros _. exists suffix.
  assert (suffix ∈ filter (λ suffix, HasSuffix name suffix = true) webserverSuffixes)
    as Hin by (rewrite Hf; by left).
  apply list_elem_of_filter in Hin as [? ?]. done.
Qed.

(** No name that the pattern of [CompressWebserverFiles] matches ends in
    [z] or [r]. *)
Lemma webserverPattern_last name e c :
  chars name = e ++ [c] →
  is_empty (webserverPattern name) = false →
  c ≠ "z"%char ∧ c ≠ "r"%char.
Proof.
  intros Hname (suffix & Hin & Hs)%webserverPattern_inv.
  apply (HasSuffix_last _ _ _ _ Hname) in Hs.
  unfold webserverSuffixes in Hin.
  repeat (apply elem_of_cons in Hin as [->|Hin]; [by rewrite <- Hs|]).
  by apply elem_of_nil in Hin.
Qed.

Lemma webserverPattern_plain p :
  is_empty (webserverPattern (Base p)) = false → plain p.
Proof.
  intros Hm. split; intros Hext.
  - destruct (Ext_last p ["g"%char] "z"%char) as [l Hl]; [by rewrite Hext|].
    destruct (Base_last p l _ Hl) as [e He]; [done|].
    by destruct (webserverPattern_last _ _ _ He Hm).
  - destruct (Ext_last p ["b"%char] "r"%char) as [l Hl]; [by rewrite Hext|].
    destruct (Base_last p l _ Hl) as [e He]; [done|].
    by destruct (webserverPattern_last _ _ _ He Hm).
Qed.

End WebserverFacts.

Module WebserverExtras.
Import Strings Filepath os Walk Compress WalkFacts PathFacts CompressFacts.
Import CompressMore CompressExtras WebserverFacts.


End WebserverExtras.

(** * The earlier walker *)

Module EarlierFacts.
Import Strings Filepath os Walk WalkFacts PathFacts CompressFacts EarlierMore.
Import Compress (state, mkState, fs, matches).

(** A relation that every call of a walk function respects holds between
    the ends of a run. *)
Lemma run_keeps {S : Type} (fsOf : S → FS)
    (walkFn : string → visit → S → S * option error) (R : S → S → Prop) :
  (∀ s, R s s) →
  (∀ s1 s2 s3, R s1 s2 → R s2 s3 → R s1 s3) →
  (∀ s p v s' err, handed fsOf s p v → walkFn p v s = (s', err) → R s s') →
  ∀ s s' err, run fsOf walkFn s s' err → R s s'.
Proof.
  intros Hrefl Htrans Hstep s s' err Hrun.
  induction Hrun as [s|s p v s1 s' e Hh Hw _ IH|s p v s1 s' e Hh Hw _ IH|s p v s1 e Hh Hw];
    eauto.
Qed.

Lemma repeated_app_l p l1 l2 : repeated p l1 → repeated p (l1 ++ l2).
Proof.
  intros (a & b & c & ->). exists a, b, (c ++ l2).
  by repeat (rewrite <- app_assoc; simpl).
Qed.

Lemma repeated_app_r p l1 l2 : repeated p l2 → repeated p (l1 ++ l2).
Proof.
  intros (a & b & c & ->). exists (l1 ++ a), b, c. by rewrite <- app_assoc.
Qed.

Lemma repeated_app p l1 l2 : p ∈ l1 → p ∈ l2 → repeated p (l1 ++ l2).
Proof.
  intros (a & b & ->)%list_elem_of_split (c & d & ->)%list_elem_of_split.
  exists a, (b ++ c), d. by repeat (rewrite <- app_assoc; simpl).
Qed.

Lemma sequenced_refl s : sequenced s s.
Proof.
  split; [done|]. exists []. split; [by rewrite app_nil_r|]. by left.
Qed.

Lemma sequenced_trans s1 s2 s3 :
  sequenced s1 s2 → sequenced s2 s3 → sequenced s1 s3.
Proof.
  intros [Hp12 (a12 & Hm12 & H12)] [Hp23 (a23 & Hm23 & H23)].
  split; [by auto|].
  exists (a12 ++ a23). split; [by rewrite Hm23, Hm12, app_assoc|].
  intros q.
  destruct (H23 q) as [Heq|(p & Hp & [[-> Hnone]|[-> Hwhy]])].
  - rewrite Heq.
    destruct (H12 q) as [?|(p & Hp & [[-> Hnone]|[-> Hwhy]])]; [by left|right..].
    + exists p. split; [apply elem_of_app; by left|]. by left.
    + exists p. split; [apply elem_of_app; by left|]. right. split; [done|].
      destruct Hwhy as [?|[?|?]]; [by left|by right; left|].
      right; right. by apply repeated_app_l.
  - right. exists p. split; [apply elem_of_app; by right|]. left. split; [done|].
    destruct (fs s1 !! (p +:+ ".gz")) as [n1|] eqn:H1; [|done].
    destruct (Hp12 (p +:+ ".gz")) as [n2 Hn]; [by eexists|]. by rewrite Hnone in Hn.
  - right. exists p. split; [apply elem_of_app; by right|]. right. split; [done|].
    destruct Hwhy as [?|[Hsome|?]]; [by left| |].
    + destruct (H12 (p +:+ ".gz")) as [Heq|(p' & Hp' & [[Hq _]|[Hq _]])].
      * right; left. by rewrite <- Heq.
      * apply append_suffix_inj in Hq as <-.
        right; right. by apply repeated_app.
      * by apply gz_ne_br in Hq.
    + right; right. by apply repeated_app_r.
Qed.

Section Facts.
Variable gzipBest : list Byte.byte → list Byte.byte.
Variable brotliFor : string → list Byte.byte → list Byte.byte.
Variable rgx : string → string.

Lemma insert_is_Some (disk : FS) path n q :
  is_Some (disk !! q) → is_Some (<[path := n]> disk !! q).
Proof.
  intros Hq. destruct (decide (path = q)) as [->|Hne].
  - rewrite lookup_insert_eq. by eexists.
  - by rewrite lookup_insert_ne.
Qed.

Lemma brotliHalf_sequenced p name inputFile s s' err :
  Earlier.brotliHalf brotliFor p name inputFile (fs s) (matches s ++ [p]) = (s', err) →
  HasSuffix p ".gz" = true ∨ is_Some (fs s !! (p +:+ ".gz")) →
  sequenced s s'.
Proof.
  unfold Earlier.brotliHalf. intros Hcall Hwhy.
  assert (sequenced s (mkState (fs s) (matches s ++ [p]))) as Hsame.
  { split; [done|]. exists [p]. split; [done|]. by left. }
  destruct (negb (HasSuffix p ".br")); [|by injection Hcall as <- <-].
  destruct (Create (fs s) (p +:+ ".br")) as [disk1|cerr] eqn:Hc;
    [|by injection Hcall as <- <-].
  injection Hcall as <- <-. rewrite (WriteAll_Create _ _ _ _ Hc).
  unfold WriteAll. split; simpl.
  - intros q. apply insert_is_Some.
  - exists [p]. split; [done|]. intros q.
    destruct (decide (q = p +:+ ".br")) as [->|Hne].
    + right. exists p. split; [by left|]. right. split; [done|].
      destruct Hwhy; [by left|by right; left].
    + left. by rewrite lookup_insert_ne.
Qed.

Lemma walkFn_sequenced p v s s' err :
  Earlier.walkFn gzipBest brotliFor rgx p v s = (s', err) → sequenced s s'.
Proof.
  destruct v as [fileInfo|fileInfo verr]; simpl.
  2: { intros [= <- <-]. apply sequenced_refl. }
  destruct (negb (IsDir fileInfo) && negb (is_empty (rgx (Name fileInfo)))).
  2: { intros [= <- <-]. apply sequenced_refl. }
  destruct (Open (fs s) p) as [inputFile|oerr].
  2: { intros [= <- <-]. apply sequenced_refl. }
  destruct (HasSuffix p ".gz") eqn:Hsuffix; simpl.
  { intros Hcall. eapply brotliHalf_sequenced; [exact Hcall|by left]. }
  destruct (Lstat (fs s) (p +:+ ".gz")) as [info|lerr] eqn:Hl.
  { intros Hcall. eapply brotliHalf_sequenced; [exact Hcall|right].
    unfold Lstat in Hl. by destruct (fs s !! (p +:+ ".gz")). }
  assert (fs s !! (p +:+ ".gz") = None) as Hnone.
  { unfold Lstat in Hl. by destruct (fs s !! (p +:+ ".gz")) as [[]|]. }
  destruct (Create (fs s) (p +:+ ".gz")) as [disk1|cerr] eqn:Hc.
  2: { intros [= <- <-]. split; [done|]. exists [p]. split; [done|]. by left. }
  intros [= <- <-]. rewrite (WriteAll_Create _ _ _ _ Hc).
  unfold WriteAll. split; simpl.
  - intros q. apply insert_is_Some.
  - exists [p]. split; [done|]. intros q.
    destruct (decide (q = p +:+ ".gz")) as [->|Hne].
    + right. exists p. split; [by left|]. by left.
    + left. by rewrite lookup_insert_ne.
Qed.

Lemma CompressFiles_sequenced disk tree dir disk' ms err :
  CompressFiles gzipBest brotliFor rgx disk tree dir = (disk', ms, err) →
  sequenced (mkState disk []) (mkState disk' ms).
Proof.
  unfold CompressFiles.
  destruct (Lstat disk (Clean dir)) as [fileInfo|lerr].
  2: { intros [= <- <- <-]. apply sequenced_refl. }
  destruct (negb (IsDir fileInfo)).
  { intros [= <- <- <-]. apply sequenced_refl. }
  destruct (Walk fs _ dir tree (mkState disk [])) as [s werr] eqn:Hw.
  intros [= <- <- <-]. apply Walk_run in Hw.
  destruct s as [d m]. simpl.
  eapply run_keeps; [apply sequenced_refl|apply sequenced_trans| |exact Hw].
  intros s p v s' e _. apply walkFn_sequenced.
Qed.

(** X12.  The earlier [CompressFiles] removes nothing, and what was on
    disk before the walk is changed only where it is the brotli sibling of a
    returned file; a gzip sibling that exists is never written again. *)
Theorem earlier_walk_keeps_what_exists disk tree dir disk' ms err :
  CompressFiles gzipBest brotliFor rgx disk tree dir = (disk', ms, err) →
  (∀ q, is_Some (disk !! q) →
     is_Some (disk' !! q) ∧
     (disk' !! q = disk !! q ∨ ∃ p, p ∈ ms ∧ q = p +:+ ".br")) ∧
  (∀ p, is_Some (disk !! (p +:+ ".gz")) →
     disk' !! (p +:+ ".gz") = disk !! (p +:+ ".gz")).
Proof.
  intros [Hpers (added & Hms & Hseq)]%CompressFiles_sequenced.
  simpl in *. subst ms.
  assert (∀ q, is_Some (disk !! q) →
            disk' !! q = disk !! q ∨ ∃ p, p ∈ added ∧ q = p +:+ ".br") as Hold.
  { intros q [n Hq].
    destruct (Hseq q) as [?|(p & Hp & [[_ Hnone]|[-> _]])]; [by left| |].
    - by rewrite Hq in Hnone.
    - right. by exists p. }
  split.
  - intros q Hq. split; [by apply Hpers|by apply Hold].
  - intros p Hq. destruct (Hold _ Hq) as [?|(p' & _ & Heq)]; [done|].
    by apply gz_ne_br in Heq.
Qed.

(** X13.  The earlier [CompressFiles] writes the brotli sibling of a file
    only when the gzip sibling was there before the walk (or the file is
    itself a [.gz] file, or the walk has visited it twice): a visit that
    creates the gzip sibling returns before the brotli half. *)
Theorem earlier_walk_writes_brotli_after_gzip disk tree dir disk' ms err p :
  CompressFiles gzipBest brotliFor rgx disk tree dir = (disk', ms, err) →
  disk' !! (p +:+ ".br") ≠ disk !! (p +:+ ".br") →
  p ∈ ms ∧
  (HasSuffix p ".gz" = true ∨ is_Some (disk !! (p +:+ ".gz")) ∨ repeated p ms).
Proof.
  intros [_ (added & Hms & Hseq)]%CompressFiles_sequenced Hchanged.
  simpl in *. subst ms.
  destruct (Hseq (p +:+ ".br")) as [?|(p' & Hp' & [[Heq _]|[Heq Hwhy]])]; [done| |].
  - symmetry in Heq. by apply gz_ne_br in Heq.
  - apply append_suffix_inj in Heq as <-. done.
Qed.

End Facts.
End EarlierFacts.

(** * The logical path of a request *)

Module PathCanon.
Import Strings Filepath PathFacts PathMore PathVocabulary.
Import Handler (originalPath).

Lemma elem_of_rev {A : Type} (x : A) (l : list A) : x ∈ rev l ↔ x ∈ l.
Proof. rewrite !list_elem_of_In. symmetry. apply in_rev. Qed.

Lemma split_slash_noslash l cur :
  "/"%char ∉ cur → Forall (λ e, "/"%char ∉ e) (split_slash l cur).
Proof.
  revert cur. induction l as [|c l IH]; intros cur Hcur; simpl.
  - constructor; [|done]. by rewrite elem_of_rev.
  - destruct (is_slash c) eqn:Hc.
    + constructor.
      * by rewrite elem_of_rev.
      * apply IH. by intros ?%elem_of_nil.
    + apply IH. apply bool_decide_eq_false in Hc.
      intros [Heq|?]%elem_of_cons; [by symmetry in Heq|done].
Qed.

Lemma clean_step_proper stack elem :
  Forall proper stack → "/"%char ∉ elem →
  Forall proper (clean_step true stack elem).
Proof.
  intros Hstack Helem. unfold clean_step.
  destruct (decide (elem = [])); [done|].
  destruct (decide (elem = dot)); [done|].
  destruct (decide (elem = dotdot)) as [->|].
  - destruct stack as [|top below]; [done|].
    destruct (decide (top = dotdot)) as [->|].
    + apply Forall_cons in Hstack as [(_ & _ & Hne & _) _]. done.
    + by apply Forall_cons in Hstack as [_ ?].
  - by constructor.
Qed.

Lemma foldl_clean_proper elems stack :
  Forall proper stack → Forall (λ e, "/"%char ∉ e) elems →
  Forall proper (foldl (clean_step true) stack elems).
Proof.
  revert stack. induction elems as [|e elems IH]; intros stack Hstack Helems;
    simpl; [done|].
  apply Forall_cons in Helems as [He Helems].
  apply IH; [|done]. by apply clean_step_proper.
Qed.

(** [Clean] of a rooted path. *)
Lemma Clean_rooted p rest :
  chars p = "/"%char :: rest →
  ∃ kept, Forall proper kept ∧ chars (Clean p) = "/"%char :: join_slash kept.
Proof.
  intros Hp. unfold Clean. rewrite Hp.
  change (is_slash "/") with true. cbv iota.
  exists (rev (foldl (clean_step true) [] (split_slash ("/"%char :: rest) []))).
  split; [|by rewrite chars_of_chars].
  apply Forall_forall. intros e He.
  rewrite elem_of_rev in He.
  revert e He. apply Forall_forall.
  apply foldl_clean_proper; [done|].
  apply split_slash_noslash. by intros ?%elem_of_nil.
Qed.

Lemma rooted_chars urlPath :
  ∃ rest,
    chars (if HasPrefix urlPath "/" then urlPath else "/" +:+ urlPath)
    = "/"%char :: rest.
Proof.
  destruct urlPath as [|c s]; simpl; [by exists []|].
  destruct (decide ("/"%char = c)) as [<-|Hne]; simpl.
  - destruct s; by eexists.
  - by eexists.
Qed.

Lemma index_canonical : canonical "/index.html".
Proof.
  exists [chars "index.html"]. split_and!; [done| |done].
  constructor; [|done]. split_and!; [done..|].
  intros H%list_elem_of_In. simpl in H. intuition discriminate.
Qed.

(** X14.  Whatever [r.URL.Path] is, the logical path that the handler
    opens, extends by the catalog suffixes and uses as the key of the cache
    is rooted and has at least one element, and none of its elements is
    empty, [.] or [..]: the handler asks its root for nothing above it. *)
Theorem originalPath_is_canonical urlPath : canonical (originalPath urlPath).
Proof.
  unfold originalPath.
  destruct (rooted_chars urlPath) as [rest Hrest].
  destruct (Clean_rooted _ _ Hrest) as (kept & Hkept & Hclean).
  destruct (decide (Clean _ = "/")) as [_|Hne]; [apply index_canonical|].
  exists kept. split_and!; [|done..].
  intros ->. apply Hne. by apply chars_inj.
Qed.

End PathCanon.

(** * The cache over a sequence of requests *)

Module ServerFacts.
Import Strings Filepath header http Handler HandlerFacts HandlerMore HandlerExtras Server.

Section Facts.
Variable TypeByExtension : string → string.
Variable MatchFile : string → string.
Variable DetectContentType : list Byte.byte → string.

Lemma catalog_extensions enc ext : (enc, ext) ∈ catalog → ext ∈ extensions.
Proof.
  unfold catalog, encoders, extensions. simpl. intros Hin.
  repeat (apply elem_of_cons in Hin as [Hin|Hin];
          [injection Hin as -> ->; set_solver|]).
  by apply elem_of_nil in Hin.
Qed.

(** One request adds to the cache at most the logical path of a file it
    has found. *)
Lemma ServeHTTP_cache_step root cache r resp cache' p :
  ServeHTTP TypeByExtension MatchFile DetectContentType root cache r
    = Returns (resp, cache') →
  is_Some (cache' !! p) →
  is_Some (cache !! p) ∨
  (p = originalPath (URLPath r) ∧
   ∃ ext, ext ∈ extensions ∧ is_Some (root !! (p +:+ ext))).
Proof.
  intros Hserve Hp. unfold ServeHTTP in Hserve.
  apply rangeEncoders_inv in Hserve as [[_ ->]|(enc & ext & Hin & _ & Htry)];
    [by left|].
  apply try_serves_inv in Htry as (file & fi & ct & (Hfile & _) & Hct & _).
  apply determine_cases in Hct as [(-> & _)| ->]; [by left|].
  destruct (decide (p = originalPath (URLPath r))) as [->|Hne].
  - right. split; [done|]. exists ext. split; [by eapply catalog_extensions|].
    by eexists.
  - left. by rewrite lookup_insert_ne in Hp.
Qed.

Lemma serveAll_backed requests : ∀ root cache served resps f',
  serveAll TypeByExtension MatchFile DetectContentType
    (mkHandler root cache) requests = Returns (resps, f') →
  backed root served cache →
  rootDir f' = root ∧ length resps = length requests ∧
  backed root (served ++ requests) (contentTypeCache f').
Proof.
  induction requests as [|r rest IH]; intros root cache served resps f' Hrun Hb;
    simpl in Hrun.
  - injection Hrun as <- <-. by rewrite app_nil_r.
  - destruct (ServeHTTP _ _ _ _ _ _) as [[resp cache']|] eqn:Hserve; [|done].
    destruct (serveAll _ _ _ _ rest) as [[resps' f'']|] eqn:Hrest; [|done].
    injection Hrun as <- <-.
    destruct (IH root cache' (served ++ [r]) resps' f'' Hrest) as (Hroot & Hlen & Hb').
    + intros p Hp.
      destruct (ServeHTTP_cache_step _ _ _ _ _ _ Hserve Hp) as [Hold|[-> (ext & ? & ?)]].
      * destruct (Hb p Hold) as (r0 & ext & Hin & ?).
        exists r0, ext. split; [apply elem_of_app; by left|done].
      * exists r, ext. split; [apply elem_of_app; right; by left|done].
    + split_and!; [done|simpl; by rewrite Hlen|]. by rewrite <- app_assoc in Hb'.
Qed.

(** X15.  A handler made by [FileServer] that has answered requests one
    after the other holds in its cache only logical paths of those requests
    for which its root has a file, plain or compressed: requests for paths
    that are not there do not make the cache grow. *)
Theorem cache_holds_only_paths_of_files root requests resps f' :
  serveAll TypeByExtension MatchFile DetectContentType
    (FileServer root) requests = Returns (resps, f') →
  ∀ p, is_Some (contentTypeCache f' !! p) →
    ∃ r ext, r ∈ requests ∧ p = originalPath (URLPath r) ∧
             ext ∈ extensions ∧ is_Some (root !! (p +:+ ext)).
Proof.
  intros Hrun.
  destruct (serveAll_backed requests root ∅ [] resps f' Hrun) as (_ & _ & Hb).
  - intros p [ct Hp]. by rewrite lookup_empty in Hp.
  - exact Hb.
Qed.

End Facts.
End ServerFacts.

(** * The archiver *)

Module ArchiveFacts.
Import Strings PathFacts PathMore Archive.

Lemma beforeDot_prefix l :
  beforeDot l = l ∨ ∃ rest, l = beforeDot l ++ "."%char :: rest.
Proof.
  induction l as [|c l IH]; simpl; [by left|].
  destruct (is_dot c) eqn:Hc.
  - right. apply bool_decide_eq_true in Hc as ->. by exists l.
  - destruct IH as [->|[rest Hrest]]; [by left|].
    right. exists rest. simpl. by f_equal.
Qed.

Lemma beforeDot_nodot l : "."%char ∉ beforeDot l.
Proof.
  induction l as [|c l IH]; simpl; [by intros ?%elem_of_nil|].
  destruct (is_dot c) eqn:Hc; [by intros ?%elem_of_nil|].
  apply bool_decide_eq_false in Hc.
  intros [Heq|?]%elem_of_cons; [by symmetry in Heq|done].
Qed.

Lemma beforeDot_app l rest :
  "."%char ∉ l → beforeDot (l ++ "."%char :: rest) = l.
Proof.
  induction l as [|c l IH]; simpl; [done|].
  intros Hl. apply not_elem_of_cons in Hl as [Hc Hl].
  unfold is_dot. rewrite bool_decide_eq_false_2 by done. by rewrite IH.
Qed.

(** X17.  [AddCSV] files a table under the part of the given name before
    its first dot, followed by [.csv]: the stem has no dot, and every name
    that agrees with the given one up to the first dot is filed under the
    same name. *)
Theorem AddCSV_names_by_first_field a filename lines temp written a' :
  AddCSV a filename lines temp written = (a', None) →
  ∃ stem file,
    filelist a' = filelist a ++ [mkTempFile (stem +:+ ".csv") file] ∧
    ("."%char ∉ chars stem) ∧
    (filename = stem ∨ ∃ rest, filename = stem +:+ "." +:+ rest) ∧
    ∀ other, AddCSV a (stem +:+ "." +:+ other) lines temp written = (a', None).
Proof.
  unfold AddCSV. destruct (isDestroyed a); [done|].
  destruct temp as [file|err]; [|done].
  destruct written as [err|]; [done|].
  intros [= <-]. exists (firstField filename), file.
  assert (chars (firstField filename) = beforeDot (chars filename)) as Hstem
    by apply chars_of_chars.
  split_and!.
  - done.
  - rewrite Hstem. apply beforeDot_nodot.
  - destruct (beforeDot_prefix (chars filename)) as [Hall|[rest Hrest]].
    + left. apply chars_inj. by rewrite Hstem.
    + right. exists (of_chars rest). apply chars_inj.
      rewrite !chars_app, chars_of_chars, Hstem. done.
  - intros other.
    assert (firstField (firstField filename +:+ "." +:+ other) = firstField filename)
      as ->; [|done].
    apply chars_inj. unfold firstField at 1.
    rewrite chars_of_chars, !chars_app, Hstem.
    apply (beforeDot_app _ (chars other)), beforeDot_nodot.
Qed.

(** X18.  [Destroy] is final: whatever is called on the archiver
    afterwards, every [AddCSV] returns [ErrArchiverHasBeenDestroyed], the
    file list stays as it was and the archiver stays destroyed. *)
Theorem destroyed_archiver_refuses_every_table a calls a' results :
  perform (Destroy a) calls = (a', results) →
  filelist a' = filelist a ∧ isDestroyed a' = true ∧ Forall2 refused calls results.
Proof.
  assert (∀ a0 a' results,
            isDestroyed a0 = true → perform a0 calls = (a', results) →
            a' = a0 ∧ Forall2 refused calls results) as Haux.
  { clear. induction calls as [|c calls IH]; intros a0 a' results Hd; simpl.
    - intros [= <- <-]. by split.
    - destruct c as [filename lines temp written|].
      + unfold AddCSV. rewrite Hd.
        destruct (perform a0 calls) as [a2 rs] eqn:Hrest.
        intros [= <- <-]. destruct (IH _ _ _ Hd Hrest) as [-> ?].
        split; [done|]. by constructor.
      + assert (Destroy a0 = a0) as ->.
        { unfold Destroy. unfold isDestroyed in Hd. by rewrite Hd. }
        destruct (perform a0 calls) as [a2 rs] eqn:Hrest.
        intros [= <- <-]. destruct (IH _ _ _ Hd Hrest) as [-> ?].
        split; [done|]. by constructor. }
  intros Hrun.
  assert (isDestroyed (Destroy a) = true) as Hd.
  { unfold Destroy, isDestroyed. by destruct (destroyed a) eqn:Ha. }
  destruct (Haux _ _ _ Hd Hrun) as [-> Hall].
  split_and!; [|done..].
  unfold Destroy. by destruct (destroyed a).
Qed.

End ArchiveFacts.

(** * Negotiation: what is never served *)

Module NegotiationExtras.
Import Strings Filepath header http Handler HandlerFacts.

Section Extras.
Variable TypeByExtension : string → string.
Variable MatchFile : string → string.
Variable DetectContentType : list Byte.byte → string.
Variable rootDir : Dir.

(** X16.  A compressed variant is served only to a client that sends no
    preferences at all or lists the token of the variant with a quality above
    zero: a token the header does not list is never the encoding of the
    response. *)
Theorem compressed_variant_only_when_accepted cache r resp cache' token :
  ServeHTTP TypeByExtension MatchFile DetectContentType rootDir cache r
    = Returns (resp, cache') →
  servedEncoding resp = Some token → token ≠ "" →
  AcceptEncoding r = [] ∨
  ∃ spec, spec ∈ AcceptEncoding r ∧ Value spec = token ∧
          isPositive (Q spec) = true.
Proof.
  intros Hserve Henc Htok. unfold ServeHTTP in Hserve.
  apply rangeEncoders_inv in Hserve as [[-> _]|(enc & ext & Hin & Ha & Htry)];
    [done|].
  apply try_serves_inv in Htry as (file & fi & ct & _ & _ & ->).
  simpl in Henc. unfold HeaderGet in Henc.
  rewrite servedHeader_encoding in Henc. injection Henc as ->.
  destruct (AcceptEncoding r) as [|spec0 rest] eqn:Hspecs; [by left|]. right.
  apply (accepted_artifact_inv _ _ ext); [done| |done].
  unfold catalog in Hin. simpl in Hin.
  repeat (apply elem_of_cons in Hin as [Hin|Hin]; [by simplify_eq|]).
  by apply elem_of_nil in Hin.
Qed.

End Extras.
End NegotiationExtras.

(** * The further properties on the examples *)

Module MoreExamples.
Import Strings Filepath header http Handler os Walk Compress.
Import World WorldMore CompressMore EarlierMore Server Archive.
Import CompressExtras WebserverExtras EarlierFacts ServerFacts ArchiveFacts
  NegotiationExtras.

Lemma returned_paths_witness :
  "build/css/site.css" ∈ builtMatches ∧
  is_empty (webserverPattern (Base "build/css/site.css")) = false ∧
  ∃ data, builtDisk !! "build/css/site.css" = Some (RegularFile data true).
Proof.
  assert ("build/css/site.css" ∈ builtMatches) as Hin by (right; left).
  split; [exact Hin|].
  apply (returned_paths_are_matched_files gz br webserverPattern
           buildDisk buildTree "build" builtDisk builtMatches None);
    [vm_compute; reflexivity|exact Hin].
Defined.

Lemma walk_removes_nothing_witness :
  (∀ q, is_Some (buildDisk !! q) → is_Some (builtDisk !! q)) ∧
  (∀ q access,
     builtDisk !! q = Some (Directory access) ↔
     buildDisk !! q = Some (Directory access)) ∧
  (∀ q, isRegular buildDisk q → isRegular builtDisk q).
Proof.
  apply (walk_removes_nothing_and_keeps_directories gz br webserverPattern
           buildDisk buildTree "build" builtDisk builtMatches None).
  vm_compute. reflexivity.
Defined.



(** The earlier walker leaves the stale gzip sibling of the script as it
    is. *)
Lemma earlier_walk_keeps_witness :
  buildDisk !! "build/app.js.gz" = Some (RegularFile (bytes "stale") true) ∧
  (∀ q, is_Some (buildDisk !! q) →
     is_Some (earlierRun.1.1 !! q) ∧
     (earlierRun.1.1 !! q = buildDisk !! q ∨
      ∃ p, p ∈ earlierRun.1.2 ∧ q = p +:+ ".br")) ∧
  (∀ p, is_Some (buildDisk !! (p +:+ ".gz")) →
     earlierRun.1.1 !! (p +:+ ".gz") = buildDisk !! (p +:+ ".gz")).
Proof.
  split; [reflexivity|].
  apply (earlier_walk_keeps_what_exists gz brFor webserverPattern
           buildDisk buildTree "build" earlierRun.1.1 earlierRun.1.2 earlierRun.2).
  vm_compute. reflexivity.
Defined.

(** It writes the brotli sibling of the script, whose gzip sibling was
    there, and none for the style sheet, whose gzip sibling it creates. *)
Lemma earlier_walk_brotli_witness :
  earlierRun.1.1 !! "build/css/site.css.br" = None ∧
  "build/app.js" ∈ earlierRun.1.2 ∧
  (HasSuffix "build/app.js" ".gz" = true ∨
   is_Some (buildDisk !! ("build/app.js" +:+ ".gz")) ∨
   repeated "build/app.js" earlierRun.1.2).
Proof.
  split; [vm_compute; reflexivity|].
  apply (earlier_walk_writes_brotli_after_gzip gz brFor webserverPattern
           buildDisk buildTree "build" earlierRun.1.1 earlierRun.1.2 earlierRun.2).
  - vm_compute. reflexivity.
  - vm_compute. discriminate.
Defined.

(** Two requests, one for the note and one for a path that is not there:
    the cache holds the note's path only. *)
Lemma cache_holds_only_witness :
  serveAll typeByExtension matchFile detectContentType (FileServer site)
    [mkRequest "/notes" []; mkRequest "/missing" []]
  = Returns ([notesResponse; NotFound], mkHandler site notesCache) ∧
  ∀ p, is_Some (notesCache !! p) →
    ∃ r ext, r ∈ [mkRequest "/notes" []; mkRequest "/missing" []] ∧
             p = originalPath (URLPath r) ∧
             ext ∈ extensions ∧ is_Some (site !! (p +:+ ext)).
Proof.
  assert (serveAll typeByExtension matchFile detectContentType (FileServer site)
            [mkRequest "/notes" []; mkRequest "/missing" []]
          = Returns ([notesResponse; NotFound], mkHandler site notesCache)) as Hrun
    by (vm_compute; reflexivity).
  split; [exact Hrun|].
  exact (cache_holds_only_paths_of_files typeByExtension matchFile
           detectContentType site _ _ _ Hrun).
Defined.

(** A client that accepts gzip gets the gzip artifact of the page. *)
Lemma compressed_variant_witness :
  ServeHTTP typeByExtension matchFile detectContentType site ∅
    (mkRequest "/index.html" [mkSpec "gzip" (q 1 2)])
  = Returns (gzipPage, pageCache) ∧
  ([mkSpec "gzip" (q 1 2)] = [] ∨
   ∃ spec, spec ∈ [mkSpec "gzip" (q 1 2)] ∧ Value spec = "gzip" ∧
           isPositive (Q spec) = true).
Proof.
  assert (ServeHTTP typeByExtension matchFile detectContentType site ∅
            (mkRequest "/index.html" [mkSpec "gzip" (q 1 2)])
          = Returns (gzipPage, pageCache)) as Hrun by (vm_compute; reflexivity).
  split; [exact Hrun|].
  apply (compressed_variant_only_when_accepted typeByExtension matchFile
           detectContentType site ∅
           (mkRequest "/index.html" [mkSpec "gzip" (q 1 2)])
           gzipPage pageCache "gzip" Hrun); [reflexivity|discriminate].
Defined.

(** A table added as [report.2024.csv] is filed as [report.csv]. *)
Lemma AddCSV_names_witness :
  AddCSV NewArchiver "report.2024.csv" [["a"; "b"]] (inl "/tmp/go_archiver_1") None
  = (oneTable, None) ∧
  ∃ stem file,
    filelist oneTable = filelist NewArchiver ++ [mkTempFile (stem +:+ ".csv") file] ∧
    ("."%char ∉ chars stem) ∧
    ("report.2024.csv" = stem ∨ ∃ rest, "report.2024.csv" = stem +:+ "." +:+ rest) ∧
    ∀ other,
      AddCSV NewArchiver (stem +:+ "." +:+ other) [["a"; "b"]]
        (inl "/tmp/go_archiver_1") None = (oneTable, None).
Proof.
  split; [reflexivity|].
  apply (AddCSV_names_by_first_field NewArchiver "report.2024.csv" [["a"; "b"]]
           (inl "/tmp/go_archiver_1") None oneTable).
  reflexivity.
Defined.

Lemma destroyed_archiver_witness :
  filelist oneTable = filelist oneTable ∧
  isDestroyed (mkArchiver (filelist oneTable) true) = true ∧
  Forall2 refused
    [CallAddCSV "more.csv" [] (inl "/tmp/go_archiver_2") None; CallDestroy]
    [Some ErrArchiverHasBeenDestroyed; None].
Proof.
  apply (destroyed_archiver_refuses_every_table oneTable
           [CallAddCSV "more.csv" [] (inl "/tmp/go_archiver_2") None; CallDestroy]
           (mkArchiver (filelist oneTable) true)
           [Some ErrArchiverHasBeenDestroyed; None]).
  reflexivity.
Defined.

End MoreExamples.
